(** * The storage-check hook of pocketpal-ai, [src/hooks/useStorageCheck.ts]

    The hook is a React effect: every run of the effect is one check
    session (an [AbortController], the captured model and options, and an
    optional interval timer).  The asynchronous function [checkStorage]
    is embedded as the pieces of code between its suspension points, and
    the event loop as a total step function over the events the
    environment can deliver: a render with new props, an unmount, one
    millisecond of time, and the settling of either promise.  Every step
    returns the actions the code performed, tagged with the session that
    performed them. *)

From Stdlib Require Import ZArith Lia Ascii.
From stdpp Require Import base list gmap strings pretty.

Local Open Scope Z_scope.

(** ** Data *)

(** Modelled from the spec: the enum [ModelOrigin] of [utils/types], which
    is not among the sources; the data model lists [LOCAL], [REMOTE] and
    leaves further members open. *)
Inductive ModelOrigin :=
| LOCAL
| REMOTE
| OTHER (tag : nat).

Global Instance ModelOrigin_eq_dec : EqDecision ModelOrigin.
Proof. solve_decision. Defined.

(** The fields of [Model] that the hook reads. *)
Record Model := {
  size : Z;
  isDownloaded : bool;
  isLocal : bool;
  origin : ModelOrigin
}.

(** The value held by [useState] (lines 29-32). *)
Record StorageStatus := {
  isOk : bool;
  message : string
}.

Global Instance StorageStatus_eq_dec : EqDecision StorageStatus.
Proof. solve_decision. Defined.

(** [StorageCheckOptions] (lines 9-21): both members are optional. *)
Record StorageCheckOptions := {
  enablePeriodicCheck : option bool;
  checkInterval : option Z
}.

(** The arguments of one call of the hook.  A model is a JS object: the
    hook receives a reference, which is what the dependency array
    compares. *)
Record Props := {
  model : nat;
  options : StorageCheckOptions
}.

(** Line 27: destructuring with defaults. *)
Definition enablePeriodicCheck_of (o : StorageCheckOptions) : bool :=
  default true (enablePeriodicCheck o).

Definition checkInterval_of (o : StorageCheckOptions) : Z :=
  default 10000 (checkInterval o).

(** One run of the effect (lines 36-92): the values its closures capture,
    the flag of its [abortController.signal] and its [intervalId]. *)
Record Session := {
  s_model : nat;
  s_periodic : bool;
  s_interval : Z;
  aborted : bool;
  intervalId : option nat
}.

(** Line 92: the dependency array, compared member by member. *)
Definition deps_of (p : Props) : nat * bool * Z :=
  (model p, enablePeriodicCheck_of (options p), checkInterval_of (options p)).

Definition session_deps (ses : Session) : nat * bool * Z :=
  (s_model ses, s_periodic ses, s_interval ses).

(** A call of [checkStorage] that is suspended at one of its two awaits. *)
Inductive Await :=
| AwaitHasEnoughSpace
| AwaitFreeDiskStorage.

Record Cycle := {
  c_session : nat;
  c_at : Await
}.

(** A repeating timer of the platform, created by [setInterval]. *)
Record Timer := {
  t_id : nat;
  t_callback : nat;
  t_period : Z;
  t_left : Z
}.

(** How a promise settles. *)
Inductive Settled (A : Type) :=
| Fulfilled (a : A)
| Rejected.
Arguments Fulfilled {A} a.
Arguments Rejected {A}.

(** What the environment does. *)
Inductive Event :=
| Render (p : Props)
| Unmount
| Tick
| HasEnoughSpaceSettled (c : nat) (r : Settled bool)
| FreeDiskStorageSettled (c : nat) (r : Settled Z).

(** What the code does.  [AInvoke c] marks a call of [checkStorage], the
    start of check cycle [c]. *)
Inductive Action :=
| AInvoke (c : nat)
| AHasEnoughSpace (c : nat) (m : nat)
| AGetFreeDiskStorage (c : nat) (kind : string)
| ASetStorageStatus (c : nat) (st : StorageStatus)
| AConsoleError (c : nat)
| AUnhandledRejection (c : nat)
| AAbort
| ASetInterval (t : nat) (ms : Z)
| AClearInterval (t : nat).

(** An action together with the session that performed it. *)
Definition Obs : Type := nat * Action.

Record State := mkState {
  storageStatus : StorageStatus;
  current : option nat;
  sessions : list Session;
  pending : gmap nat Cycle;
  timers : list Timer;
  next_timer : nat;
  next_cycle : nat
}.

(** Lines 29-32: the initial value of the state cell, which is also what
    a sufficient check sets (lines 67-70); and what line 75 sets. *)
Definition initialStatus : StorageStatus := {| isOk := true; message := "" |}.

Definition failedStatus : StorageStatus :=
  {| isOk := false; message := "Failed to check storage" |}.

(** Before the first render: the state cell holds its initial value and
    the platform has handed out no timer yet (its ids start at 1). *)
Definition init : State :=
  mkState initialStatus None [] ∅ [] 1%nat 0%nat.

(** ** Field updates *)

Definition set_storageStatus (st : StorageStatus) (s : State) : State :=
  mkState st (current s) (sessions s) (pending s) (timers s)
          (next_timer s) (next_cycle s).

Definition set_current (o : option nat) (s : State) : State :=
  mkState (storageStatus s) o (sessions s) (pending s) (timers s)
          (next_timer s) (next_cycle s).

Definition set_sessions (l : list Session) (s : State) : State :=
  mkState (storageStatus s) (current s) l (pending s) (timers s)
          (next_timer s) (next_cycle s).

Definition set_pending (m : gmap nat Cycle) (s : State) : State :=
  mkState (storageStatus s) (current s) (sessions s) m (timers s)
          (next_timer s) (next_cycle s).

Definition set_timers (l : list Timer) (s : State) : State :=
  mkState (storageStatus s) (current s) (sessions s) (pending s) l
          (next_timer s) (next_cycle s).

Definition set_next_timer (n : nat) (s : State) : State :=
  mkState (storageStatus s) (current s) (sessions s) (pending s) (timers s)
          n (next_cycle s).

Definition set_next_cycle (n : nat) (s : State) : State :=
  mkState (storageStatus s) (current s) (sessions s) (pending s) (timers s)
          (next_timer s) n.

Definition set_aborted (ses : Session) : Session :=
  {| s_model := s_model ses; s_periodic := s_periodic ses;
     s_interval := s_interval ses; aborted := true;
     intervalId := intervalId ses |}.

Definition set_intervalId (t : nat) (ses : Session) : Session :=
  {| s_model := s_model ses; s_periodic := s_periodic ses;
     s_interval := s_interval ses; aborted := aborted ses;
     intervalId := Some t |}.

(** ** The hook *)

Section Hook.

(** The model objects the caller holds, by reference.  The data model
    keeps a descriptor unchanged while it is observed, so an object is
    its reference and its (fixed) contents. *)
Variable store : nat → Model.

(** [formatBytes] of [utils], which is not among the sources. *)
Variable formatBytes : Z → string.

(** Lines 41-45: the condition of the early return. *)
Definition skips (m : Model) : bool :=
  isDownloaded m || isLocal m || bool_decide (origin m = LOCAL).

(** Lines 60-65. *)
Definition lowStatus (m : Model) (freeDisk : Z) : StorageStatus :=
  {| isOk := false;
     message := "Storage low! Model " +:+ formatBytes (size m) +:+ " > "
                +:+ formatBytes freeDisk +:+ " free" |}.

(** How a piece of the [try] block ends: it returns, it suspends at an
    await, or it throws. *)
Inductive Flow :=
| Return
| Suspend (a : Await)
| Throw.

(** [abortController.signal.aborted] and [model], read from the closure
    of session [sid] (a call always has its session: the other case is
    never met). *)
Definition signal_aborted (sid : nat) (s : State) : bool :=
  match sessions s !! sid with
  | Some ses => aborted ses
  | None => true
  end.

Definition model_of (sid : nat) (s : State) : nat :=
  match sessions s !! sid with
  | Some ses => s_model ses
  | None => 0%nat
  end.

(** Lines 41-49: from the call of [checkStorage] to its first await. *)
Definition checkStorage_enter (sid c : nat) (s : State)
  : State * list Action * Flow :=
  if skips (store (model_of sid s)) then (s, [], Return)
  else (s, [AHasEnoughSpace c (model_of sid s)], Suspend AwaitHasEnoughSpace).

(** Lines 49-55 and 66-71: what follows [await hasEnoughSpace(model)]. *)
Definition after_hasEnoughSpace (sid c : nat) (r : Settled bool) (s : State)
  : State * list Action * Flow :=
  match r with
  | Rejected => (s, [], Throw)
  | Fulfilled isEnoughSpace =>
      if signal_aborted sid s then (s, [], Return)
      else if negb isEnoughSpace
      then (s, [AGetFreeDiskStorage c "important"],
            Suspend AwaitFreeDiskStorage)
      else (set_storageStatus {| isOk := true; message := "" |} s,
            [ASetStorageStatus c {| isOk := true; message := "" |}], Return)
  end.

(** Lines 55-65: what follows [await DeviceInfo.getFreeDiskStorage]. *)
Definition after_getFreeDiskStorage (sid c : nat) (r : Settled Z) (s : State)
  : State * list Action * Flow :=
  match r with
  | Rejected => (s, [], Throw)
  | Fulfilled freeDisk =>
      if signal_aborted sid s then (s, [], Return)
      else
        let st := lowStatus (store (model_of sid s)) freeDisk in
        (set_storageStatus st s, [ASetStorageStatus c st], Return)
  end.

(** Lines 72-77: the [catch] clause around all of the above. *)
Definition catch (sid c : nat) (r : State * list Action * Flow)
  : State * list Action * Flow :=
  match r with
  | (s, acts, Throw) =>
      if negb (signal_aborted sid s)
      then (set_storageStatus
              {| isOk := false; message := "Failed to check storage" |} s,
            acts ++ [AConsoleError c;
                     ASetStorageStatus c
                       {| isOk := false;
                          message := "Failed to check storage" |}],
            Return)
      else (s, acts, Return)
  | _ => r
  end.

(** The async function around a piece of its body: a suspended call is
    recorded as pending, a finished one is forgotten, and an exception
    that leaves the function rejects a promise nobody handles. *)
Definition async (sid c : nat) (r : State * list Action * Flow)
  : State * list Obs :=
  match catch sid c r with
  | (s, acts, Return) =>
      (set_pending (delete c (pending s)) s, pair sid <$> acts)
  | (s, acts, Suspend a) =>
      (set_pending (<[c := {| c_session := sid; c_at := a |}]> (pending s)) s,
       pair sid <$> acts)
  | (s, acts, Throw) =>
      (set_pending (delete c (pending s)) s,
       (pair sid <$> acts) ++ [(sid, AUnhandledRejection c)])
  end.

(** Lines 39-78, called at line 80 and by the timer of line 83. *)
Definition checkStorage (sid : nat) (s : State) : State * list Obs :=
  let c := next_cycle s in
  let '(s', obs) := async sid c (checkStorage_enter sid c (set_next_cycle (S c) s)) in
  (s', (sid, AInvoke c) :: obs).

(** The platform's timers: a period below one millisecond counts as one. *)
Definition period_of (ms : Z) : Z := Z.max 1 ms.

(** Line 83. *)
Definition setInterval (sid : nat) (ms : Z) (s : State) : State * list Obs :=
  let t := next_timer s in
  let s1 := set_timers (timers s ++ [{| t_id := t; t_callback := sid;
                                         t_period := ms;
                                         t_left := period_of ms |}]) s in
  let s2 := set_next_timer (S t) s1 in
  (set_sessions (alter (set_intervalId t) sid (sessions s2)) s2,
   [(sid, ASetInterval t ms)]).

(** Line 89. *)
Definition clearInterval (sid t : nat) (s : State) : State * list Obs :=
  (set_timers (List.filter (λ x, negb (Nat.eqb (t_id x) t)) (timers s)) s,
   [(sid, AClearInterval t)]).

(** Lines 80-84: the body of the effect, for a fresh session. *)
Definition effect (p : Props) (s : State) : State * list Obs :=
  let sid := length (sessions s) in
  let ses := {| s_model := model p;
                s_periodic := enablePeriodicCheck_of (options p);
                s_interval := checkInterval_of (options p);
                aborted := false; intervalId := None |} in
  let s0 := set_current (Some sid) (set_sessions (sessions s ++ [ses]) s) in
  let '(s1, o1) := checkStorage sid s0 in
  if enablePeriodicCheck_of (options p)
  then let '(s2, o2) := setInterval sid (checkInterval_of (options p)) s1 in
       (s2, o1 ++ o2)
  else (s1, o1).

(** Lines 86-91: the function the effect returns.  A timer id is a
    positive number, so [if (intervalId)] tests that one was set. *)
Definition cleanup (sid : nat) (s : State) : State * list Obs :=
  let s1 := set_sessions (alter set_aborted sid (sessions s)) s in
  match sessions s !! sid ≫= intervalId with
  | Some t =>
      if negb (Nat.eqb t 0)
      then let '(s2, o2) := clearInterval sid t s1 in (s2, (sid, AAbort) :: o2)
      else (s1, [(sid, AAbort)])
  | None => (s1, [(sid, AAbort)])
  end.

(** React runs the effect after the first render, and after a later one
    when a dependency differs, the old cleanup first.  The state cell is
    the component's: it outlives the sessions.  (A render that follows an
    unmount runs the effect anew on the same cell, as React does when it
    replays effects; a new instance of the component is a new run from
    [init].) *)
Definition render (p : Props) (s : State) : State * list Obs :=
  match current s with
  | None => effect p s
  | Some sid =>
      if bool_decide (session_deps <$> sessions s !! sid = Some (deps_of p))
      then (s, [])
      else let '(s1, o1) := cleanup sid s in
           let '(s2, o2) := effect p s1 in
           (s2, o1 ++ o2)
  end.

Definition unmount (s : State) : State * list Obs :=
  match current s with
  | None => (s, [])
  | Some sid =>
      let '(s1, o1) := cleanup sid s in (set_current None s1, o1)
  end.

(** One millisecond passes: a timer that has run down calls its callback
    and starts over. *)
Definition due (t : Timer) : bool := t_left t - 1 <=? 0.

Definition elapse (t : Timer) : Timer :=
  {| t_id := t_id t; t_callback := t_callback t; t_period := t_period t;
     t_left := if due t then period_of (t_period t) else t_left t - 1 |}.

Fixpoint callbacks (sids : list nat) (s : State) : State * list Obs :=
  match sids with
  | [] => (s, [])
  | sid :: rest =>
      let '(s1, o1) := checkStorage sid s in
      let '(s2, o2) := callbacks rest s1 in
      (s2, o1 ++ o2)
  end.

Definition tick (s : State) : State * list Obs :=
  callbacks (t_callback <$> List.filter due (timers s))
            (set_timers (elapse <$> timers s) s).

(** A promise settles: the call that awaits it goes on. *)
Definition hasEnoughSpace_settled (c : nat) (r : Settled bool) (s : State)
  : State * list Obs :=
  match pending s !! c with
  | Some {| c_session := sid; c_at := AwaitHasEnoughSpace |} =>
      async sid c (after_hasEnoughSpace sid c r s)
  | _ => (s, [])
  end.

Definition getFreeDiskStorage_settled (c : nat) (r : Settled Z) (s : State)
  : State * list Obs :=
  match pending s !! c with
  | Some {| c_session := sid; c_at := AwaitFreeDiskStorage |} =>
      async sid c (after_getFreeDiskStorage sid c r s)
  | _ => (s, [])
  end.

Definition step (s : State) (e : Event) : State * list Obs :=
  match e with
  | Render p => render p s
  | Unmount => unmount s
  | Tick => tick s
  | HasEnoughSpaceSettled c r => hasEnoughSpace_settled c r s
  | FreeDiskStorageSettled c r => getFreeDiskStorage_settled c r s
  end.

Fixpoint run (s : State) (evs : list Event) : State * list Obs :=
  match evs with
  | [] => (s, [])
  | e :: rest =>
      let '(s1, o1) := step s e in
      let '(s2, o2) := run s1 rest in
      (s2, o1 ++ o2)
  end.

Definition reachable (s : State) : Prop := ∃ evs, s = (run init evs).1.

(** ** Well-formed states

    What every state the hook can reach satisfies: the sessions that are
    not cancelled, the timers that are live and the calls that are
    suspended fit together. *)
Record Inv (s : State) : Prop := {
  inv_next_timer : (0 < next_timer s)%nat;
  inv_current : ∀ sid, current s = Some sid →
    ∃ ses, sessions s !! sid = Some ses ∧ aborted ses = false;
  inv_live : ∀ sid ses, sessions s !! sid = Some ses →
    aborted ses = false → current s = Some sid;
  inv_timers : ∀ t, t ∈ timers s →
    1 ≤ t_left t ≤ period_of (t_period t) ∧
    ∃ ses, sessions s !! t_callback t = Some ses ∧ aborted ses = false ∧
           intervalId ses = Some (t_id t) ∧ s_interval ses = t_period t;
  inv_one_timer : (length (timers s) ≤ 1)%nat;
  inv_intervalId : ∀ sid ses t, sessions s !! sid = Some ses →
    intervalId ses = Some t →
    s_periodic ses = true ∧ (0 < t < next_timer s)%nat;
  inv_pending : ∀ c cyc, pending s !! c = Some cyc →
    (c < next_cycle s)%nat ∧
    ∃ ses, sessions s !! c_session cyc = Some ses ∧
           skips (store (s_model ses)) = false;
  inv_single : ∀ c1 c2 cyc1 cyc2 ses,
    pending s !! c1 = Some cyc1 → pending s !! c2 = Some cyc2 →
    c_session cyc1 = c_session cyc2 →
    sessions s !! c_session cyc1 = Some ses → s_periodic ses = false →
    c1 = c2
}.

(** ** The vocabulary of the statements *)

(** The dependencies of the session that is current.  The effect does
    not run again on a render that brings the same ones. *)
Definition observed (s : State) : option (nat * bool * Z) :=
  current s ≫= λ sid, session_deps <$> sessions s !! sid.

Definition observing (d : nat * bool * Z) (s : State) : Prop :=
  observed s = Some d.

Global Instance observing_dec d s : Decision (observing d s).
Proof. unfold observing. apply _. Defined.

(** The events that leave the current session in place: time, promises,
    and renders with the dependencies [d] of that session. *)
Definition keeps (d : nat * bool * Z) (e : Event) : bool :=
  match e with
  | Render p => bool_decide (deps_of p = d)
  | Unmount => false
  | _ => true
  end.

(** The event that settles the promise a suspended call is waiting for,
    and the one that rejects it. *)
Definition settles (cyc : Cycle) (c : nat) (e : Event) : Prop :=
  match c_at cyc, e with
  | AwaitHasEnoughSpace, HasEnoughSpaceSettled c' _ => c' = c
  | AwaitFreeDiskStorage, FreeDiskStorageSettled c' _ => c' = c
  | _, _ => False
  end.

Definition rejects (cyc : Cycle) (c : nat) (e : Event) : Prop :=
  match c_at cyc, e with
  | AwaitHasEnoughSpace, HasEnoughSpaceSettled c' Rejected => c' = c
  | AwaitFreeDiskStorage, FreeDiskStorageSettled c' Rejected => c' = c
  | _, _ => False
  end.

(** The status that the calls of [setStorageStatus] in a trace leave in
    the state cell, which held [st] before. *)
Fixpoint last_status (st : StorageStatus) (obs : list Obs) : StorageStatus :=
  match obs with
  | [] => st
  | (_, ASetStorageStatus _ st') :: rest => last_status st' rest
  | _ :: rest => last_status st rest
  end.

Definition sets_status (o : Obs) : bool :=
  match o.2 with
  | ASetStorageStatus _ _ => true
  | _ => false
  end.

(** The actions of starting and ending a session and of starting a
    cycle; all others are performed when a promise settles. *)
Definition lifecycle (o : Obs) : bool :=
  match o.2 with
  | AInvoke _ | AHasEnoughSpace _ _ | AAbort
  | ASetInterval _ _ | AClearInterval _ => true
  | _ => false
  end.

(** Calls of [checkStorage] that return at once, and the setting up and
    tearing down of sessions. *)
Definition bookkeeping (o : Obs) : bool :=
  match o.2 with
  | AInvoke _ | AAbort | ASetInterval _ _ | AClearInterval _ => true
  | _ => false
  end.

(** Every session so far is one of a model that needs no check. *)
Definition all_skip (s : State) : Prop :=
  ∀ sid ses, sessions s !! sid = Some ses → skips (store (s_model ses)) = true.

(** The number of calls of [checkStorage] that session [sid] made. *)
Definition invoked_by (sid : nat) (o : Obs) : bool :=
  match o with
  | (x, AInvoke _) => Nat.eqb x sid
  | _ => false
  end.

Definition invocations (sid : nat) (obs : list Obs) : nat :=
  length (List.filter (invoked_by sid) obs).

(** The milliseconds that pass in a run. *)
Definition is_tick (e : Event) : bool :=
  match e with
  | Tick => true
  | _ => false
  end.

Definition ticks (evs : list Event) : nat :=
  length (List.filter is_tick evs).

(** The session that line 37 and the closures of the effect make up, and
    the state once it is the current one. *)
Definition fresh_session (p : Props) : Session :=
  {| s_model := model p;
     s_periodic := enablePeriodicCheck_of (options p);
     s_interval := checkInterval_of (options p);
     aborted := false; intervalId := None |}.

Definition add_session (p : Props) (s : State) : State :=
  set_current (Some (length (sessions s)))
              (set_sessions (sessions s ++ [fresh_session p]) s).

(** What the effect leaves behind for props [p], written out: the new
    session [sid] with the id [t] of its timer (if it has one), that
    timer, and the actions in their order: the immediate call [c] of
    [checkStorage], its query unless the model needs none, and
    [setInterval] if periodic checks are on. *)
Definition started_session (p : Props) (t : nat) : Session :=
  if enablePeriodicCheck_of (options p)
  then set_intervalId t (fresh_session p)
  else fresh_session p.

Definition started_timer (p : Props) (sid t : nat) : list Timer :=
  if enablePeriodicCheck_of (options p)
  then [{| t_id := t; t_callback := sid;
           t_period := checkInterval_of (options p);
           t_left := period_of (checkInterval_of (options p)) |}]
  else [].

Definition started_actions (p : Props) (sid c t : nat) : list Obs :=
  (sid, AInvoke c) ::
  (if skips (store (model p)) then []
   else [(sid, AHasEnoughSpace c (model p))]) ++
  (if enablePeriodicCheck_of (options p)
   then [(sid, ASetInterval t (checkInterval_of (options p)))]
   else []).

(** The actions of the cleanup of session [old], in their order: the
    abort, then [clearInterval] if the session had set a timer. *)
Definition cleanup_actions (old : nat) (oldses : Session) : list Obs :=
  (old, AAbort) ::
  match intervalId oldses with
  | Some t => [(old, AClearInterval t)]
  | None => []
  end.

(** How a step may change the suspended calls: when a promise settles,
    calls end or move on within their session; a call of [checkStorage]
    by session [sid] may add one, for a model that is checked. *)
Definition cycle_update (s s' : State) : Prop :=
  current s' = current s ∧ sessions s' = sessions s ∧
  timers s' = timers s ∧ next_timer s' = next_timer s ∧
  next_cycle s' = next_cycle s ∧
  ∀ c cyc', pending s' !! c = Some cyc' →
    ∃ cyc, pending s !! c = Some cyc ∧ c_session cyc' = c_session cyc.

Definition invoke_update (sid : nat) (s s' : State) : Prop :=
  current s' = current s ∧ sessions s' = sessions s ∧
  timers s' = timers s ∧ next_timer s' = next_timer s ∧
  storageStatus s' = storageStatus s ∧
  next_cycle s' = S (next_cycle s) ∧
  ∀ c cyc', pending s' !! c = Some cyc' →
    (∃ cyc, pending s !! c = Some cyc ∧ c_session cyc' = c_session cyc) ∨
    (c = next_cycle s ∧ c_session cyc' = sid ∧
     skips (store (model_of sid s)) = false).

(** Membership in a list that is written out. *)
Ltac elem_cases H :=
  repeat (apply elem_of_cons in H as [H|H]; [subst|]);
  try (by apply elem_of_nil in H).

(** ** Equations of the pieces *)

Lemma checkStorage_skip sid s :
  skips (store (model_of sid s)) = true →
  checkStorage sid s =
    (set_pending (delete (next_cycle s) (pending s))
                 (set_next_cycle (S (next_cycle s)) s),
     [(sid, AInvoke (next_cycle s))]).
Proof.
  intros H. unfold checkStorage, checkStorage_enter.
  change (model_of sid (set_next_cycle _ s)) with (model_of sid s).
  by rewrite H.
Qed.

Lemma checkStorage_query sid s :
  skips (store (model_of sid s)) = false →
  checkStorage sid s =
    (set_pending (<[next_cycle s :=
                     {| c_session := sid; c_at := AwaitHasEnoughSpace |}]>
                    (pending s))
                 (set_next_cycle (S (next_cycle s)) s),
     [(sid, AInvoke (next_cycle s));
      (sid, AHasEnoughSpace (next_cycle s) (model_of sid s))]).
Proof.
  intros H. unfold checkStorage, checkStorage_enter.
  change (model_of sid (set_next_cycle _ s)) with (model_of sid s).
  by rewrite H.
Qed.

Lemma signal_aborted_lookup sid s ses :
  sessions s !! sid = Some ses → signal_aborted sid s = aborted ses.
Proof. intros H. unfold signal_aborted. by rewrite H. Qed.

Lemma model_of_lookup sid s ses :
  sessions s !! sid = Some ses → model_of sid s = s_model ses.
Proof. intros H. unfold model_of. by rewrite H. Qed.

(** A cancelled session: whatever the promise brings, the call ends
    without an action. *)
Lemma async_hasEnoughSpace_stale sid c r s :
  signal_aborted sid s = true →
  async sid c (after_hasEnoughSpace sid c r s) =
    (set_pending (delete c (pending s)) s, []).
Proof.
  intros H. unfold async, after_hasEnoughSpace, catch.
  destruct r; simpl; by rewrite H.
Qed.

Lemma async_getFreeDiskStorage_stale sid c r s :
  signal_aborted sid s = true →
  async sid c (after_getFreeDiskStorage sid c r s) =
    (set_pending (delete c (pending s)) s, []).
Proof.
  intros H. unfold async, after_getFreeDiskStorage, catch.
  destruct r; simpl; by rewrite H.
Qed.

(** A live session. *)
Lemma async_hasEnoughSpace_true sid c s :
  signal_aborted sid s = false →
  async sid c (after_hasEnoughSpace sid c (Fulfilled true) s) =
    (set_pending (delete c (pending s)) (set_storageStatus initialStatus s),
     [(sid, ASetStorageStatus c initialStatus)]).
Proof. intros H. unfold async, after_hasEnoughSpace, catch. by rewrite H. Qed.

Lemma async_hasEnoughSpace_false sid c s :
  signal_aborted sid s = false →
  async sid c (after_hasEnoughSpace sid c (Fulfilled false) s) =
    (set_pending (<[c := {| c_session := sid; c_at := AwaitFreeDiskStorage |}]>
                    (pending s)) s,
     [(sid, AGetFreeDiskStorage c "important")]).
Proof. intros H. unfold async, after_hasEnoughSpace, catch. by rewrite H. Qed.

Lemma async_getFreeDiskStorage_value sid c freeDisk s :
  signal_aborted sid s = false →
  async sid c (after_getFreeDiskStorage sid c (Fulfilled freeDisk) s) =
    (set_pending (delete c (pending s))
       (set_storageStatus (lowStatus (store (model_of sid s)) freeDisk) s),
     [(sid, ASetStorageStatus c
              (lowStatus (store (model_of sid s)) freeDisk))]).
Proof.
  intros H. unfold async, after_getFreeDiskStorage, catch. by rewrite H.
Qed.

Lemma async_hasEnoughSpace_rejected sid c s :
  signal_aborted sid s = false →
  async sid c (after_hasEnoughSpace sid c Rejected s) =
    (set_pending (delete c (pending s)) (set_storageStatus failedStatus s),
     [(sid, AConsoleError c); (sid, ASetStorageStatus c failedStatus)]).
Proof. intros H. unfold async, after_hasEnoughSpace, catch. by rewrite H. Qed.

Lemma async_getFreeDiskStorage_rejected sid c s :
  signal_aborted sid s = false →
  async sid c (after_getFreeDiskStorage sid c Rejected s) =
    (set_pending (delete c (pending s)) (set_storageStatus failedStatus s),
     [(sid, AConsoleError c); (sid, ASetStorageStatus c failedStatus)]).
Proof.
  intros H. unfold async, after_getFreeDiskStorage, catch. by rewrite H.
Qed.

(** The [catch] clause lets no exception through. *)
Lemma catch_no_throw sid c r : (catch sid c r).2 ≠ Throw.
Proof.
  destruct r as [[s acts] [|a|]]; simpl; try done.
  by destruct (signal_aborted sid s).
Qed.

Lemma cycle_update_refl s : cycle_update s s.
Proof. repeat split; eauto. Qed.

Lemma hasEnoughSpace_settled_update c r s :
  cycle_update s (hasEnoughSpace_settled c r s).1.
Proof.
  unfold hasEnoughSpace_settled.
  destruct (pending s !! c) as [[sid []]|] eqn:Hc;
    try apply cycle_update_refl.
  unfold async, after_hasEnoughSpace, catch.
  destruct r as [[]|]; destruct (signal_aborted sid s); simpl;
    repeat split; try done; intros c' cyc' H; simpl in H;
    destruct (decide (c' = c)) as [->|Hne];
    rewrite ?lookup_delete_eq, ?lookup_delete_ne, ?lookup_insert_eq,
      ?lookup_insert_ne in H by done; simplify_eq; eauto.
Qed.

Lemma getFreeDiskStorage_settled_update c r s :
  cycle_update s (getFreeDiskStorage_settled c r s).1.
Proof.
  unfold getFreeDiskStorage_settled.
  destruct (pending s !! c) as [[sid []]|] eqn:Hc;
    try apply cycle_update_refl.
  unfold async, after_getFreeDiskStorage, catch.
  destruct r as [?|]; destruct (signal_aborted sid s); simpl;
    repeat split; try done; intros c' cyc' H; simpl in H;
    destruct (decide (c' = c)) as [->|Hne];
    rewrite ?lookup_delete_eq, ?lookup_delete_ne, ?lookup_insert_eq,
      ?lookup_insert_ne in H by done; simplify_eq; eauto.
Qed.

Lemma checkStorage_update sid s : invoke_update sid s (checkStorage sid s).1.
Proof.
  destruct (skips (store (model_of sid s))) eqn:Hk.
  - rewrite checkStorage_skip by done. simpl.
    repeat split; try done. intros c cyc' H. simpl in H. left.
    destruct (decide (c = next_cycle s)) as [->|Hne].
    + by rewrite lookup_delete_eq in H.
    + rewrite lookup_delete_ne in H by done. eauto.
  - rewrite checkStorage_query by done. simpl.
    repeat split; try done. intros c cyc' H. simpl in H.
    destruct (decide (c = next_cycle s)) as [->|Hne].
    + rewrite lookup_insert_eq in H. simplify_eq. by right.
    + rewrite lookup_insert_ne in H by done. eauto.
Qed.

Lemma Inv_cycle_update s s' : Inv s → cycle_update s s' → Inv s'.
Proof.
  intros HI (Hcur & Hses & Htm & Hnt & Hnc & Hp).
  split; rewrite ?Hcur, ?Hses, ?Htm, ?Hnt, ?Hnc; try apply HI.
  - intros c cyc' H. destruct (Hp _ _ H) as (cyc & Hc & ->).
    by apply (inv_pending _ HI).
  - intros c1 c2 cyc1 cyc2 ses H1 H2.
    destruct (Hp _ _ H1) as (d1 & Hd1 & ->).
    destruct (Hp _ _ H2) as (d2 & Hd2 & ->).
    by apply (inv_single _ HI).
Qed.

Lemma Inv_invoke_update sid ses s s' :
  Inv s → sessions s !! sid = Some ses →
  (s_periodic ses = true ∨
   ∀ c cyc, pending s !! c = Some cyc → c_session cyc ≠ sid) →
  invoke_update sid s s' → Inv s'.
Proof.
  intros HI Hsid Hpre (Hcur & Hses & Htm & Hnt & _ & Hnc & Hp).
  split; rewrite ?Hcur, ?Hses, ?Htm, ?Hnt, ?Hnc; try apply HI.
  - intros c cyc' H. destruct (Hp _ _ H) as [(cyc & Hc & ->)|(-> & -> & Hk)].
    + destruct (inv_pending _ HI _ _ Hc) as [? ?]. split; [lia|done].
    + split; [lia|]. exists ses. split; [done|].
      by rewrite (model_of_lookup _ _ _ Hsid) in Hk.
  - intros c1 c2 cyc1 cyc2 ses' H1 H2 Heq Hs' Hnp.
    destruct (Hp _ _ H1) as [(d1 & Hd1 & E1)|(-> & E1 & _)];
      destruct (Hp _ _ H2) as [(d2 & Hd2 & E2)|(-> & E2 & _)]; try done.
    + rewrite E1 in Heq, Hs'. rewrite E2 in Heq.
      by apply (inv_single _ HI _ _ _ _ ses' Hd1 Hd2).
    + exfalso. rewrite E2 in Heq. rewrite Heq, Hsid in Hs'. simplify_eq.
      destruct Hpre as [Hpre|Hpre]; [congruence|].
      apply (Hpre _ _ Hd1). congruence.
    + exfalso. rewrite E1 in Heq, Hs'. rewrite Hsid in Hs'. simplify_eq.
      destruct Hpre as [Hpre|Hpre]; [congruence|].
      apply (Hpre _ _ Hd2). congruence.
Qed.

(** ** The invariant is kept *)

Lemma Inv_init : Inv init.
Proof.
  split; simpl; try done.
  - lia.
  - intros t H. by apply elem_of_nil in H.
  - lia.
Qed.

Lemma lookup_abort cur (l : list Session) sid ses' :
  alter set_aborted cur l !! sid = Some ses' →
  ∃ ses, l !! sid = Some ses ∧
         ses' = (if decide (cur = sid) then set_aborted ses else ses).
Proof.
  intros H. destruct (decide (cur = sid)) as [->|Hne].
  - rewrite list_lookup_alter_eq in H.
    destruct (l !! sid) as [ses|]; simplify_eq/=. eauto.
  - rewrite list_lookup_alter_ne in H by done. eauto.
Qed.

Lemma Inv_no_timers s : Inv s → current s = None → timers s = [].
Proof.
  intros HI Hcur. destruct (timers s) as [|t l] eqn:Ht; [done|].
  destruct (inv_timers _ HI t) as (_ & ses & Hs & Hab & _).
  { rewrite Ht. by left. }
  pose proof (inv_live _ HI _ _ Hs Hab). congruence.
Qed.

(** What the cleanup of the current session leaves behind. *)
Lemma unmount_spec s cur ses :
  Inv s → current s = Some cur → sessions s !! cur = Some ses →
  unmount s =
    (mkState (storageStatus s) None (alter set_aborted cur (sessions s))
             (pending s) [] (next_timer s) (next_cycle s),
     (cur, AAbort) ::
       match intervalId ses with
       | Some t => [(cur, AClearInterval t)]
       | None => []
       end).
Proof.
  intros HI Hcur Hses. unfold unmount, cleanup. rewrite Hcur, Hses. simpl.
  assert (Hab : aborted ses = false).
  { destruct (inv_current _ HI _ Hcur) as (? & ? & ?). congruence. }
  assert (Hown : ∀ t, t ∈ timers s → intervalId ses = Some (t_id t)).
  { intros t Ht. destruct (inv_timers _ HI t Ht) as (_ & x & Hx & Hxa & Hi & _).
    pose proof (inv_live _ HI _ _ Hx Hxa). by simplify_eq. }
  pose proof (inv_one_timer _ HI) as Hlen.
  destruct (intervalId ses) as [t|] eqn:Hid.
  - destruct (inv_intervalId _ HI _ _ _ Hses Hid) as [_ Ht].
    destruct (Nat.eqb_spec t 0) as [|_]; [lia|]. simpl.
    unfold set_timers, set_sessions, set_current. simpl. do 3 f_equal.
    destruct (timers s) as [|x [|y l]]; simpl in *; [done| |lia].
    specialize (Hown x ltac:(by left)). simplify_eq.
    by rewrite Nat.eqb_refl.
  - assert (Htm : timers s = []).
    { destruct (timers s) as [|x l]; [done|].
      specialize (Hown x ltac:(by left)). done. }
    unfold set_sessions, set_current. simpl. by rewrite Htm.
Qed.

Lemma Inv_unmount s : Inv s → Inv (unmount s).1.
Proof.
  intros HI. destruct (current s) as [cur|] eqn:Hcur.
  2: { unfold unmount. by rewrite Hcur. }
  destruct (inv_current _ HI _ Hcur) as (ses & Hses & Hab).
  rewrite (unmount_spec _ _ _ HI Hcur Hses). simpl.
  split; simpl; try apply HI.
  - done.
  - intros sid ses' H Ha. apply lookup_abort in H as (x & Hx & ->).
    case_decide; simplify_eq/=.
    pose proof (inv_live _ HI _ _ Hx Ha). congruence.
  - intros t H. by apply elem_of_nil in H.
  - lia.
  - intros sid ses' t H Hi. apply lookup_abort in H as (x & Hx & ->).
    assert (Hi' : intervalId x = Some t) by by case_decide.
    destruct (inv_intervalId _ HI _ _ _ Hx Hi'). by case_decide.
  - intros c cyc H. destruct (inv_pending _ HI _ _ H) as (? & x & Hx & Hk).
    split; [done|]. destruct (decide (cur = c_session cyc)) as [->|Hne].
    + exists (set_aborted x). rewrite list_lookup_alter_eq, Hx. done.
    + exists x. by rewrite list_lookup_alter_ne.
  - intros c1 c2 cyc1 cyc2 ses' H1 H2 Heq H Hp.
    apply lookup_abort in H as (x & Hx & ->).
    apply (inv_single _ HI _ _ _ _ x H1 H2 Heq Hx). by case_decide.
Qed.

Lemma add_session_lookup p s :
  sessions (add_session p s) !! length (sessions s) = Some (fresh_session p).
Proof. simpl. by rewrite list_lookup_middle. Qed.

Lemma pending_session_lt s c cyc :
  Inv s → pending s !! c = Some cyc → (c_session cyc < length (sessions s))%nat.
Proof.
  intros HI H. destruct (inv_pending _ HI _ _ H) as (_ & x & Hx & _).
  by apply lookup_lt_Some in Hx.
Qed.

Lemma Inv_add_session p s : Inv s → current s = None → Inv (add_session p s).
Proof.
  intros HI Hcur. pose proof (Inv_no_timers _ HI Hcur) as Htm.
  split; simpl; try apply HI.
  - intros sid [= <-]. exists (fresh_session p).
    by rewrite list_lookup_middle.
  - intros sid ses H Ha. apply lookup_snoc_Some in H as [[Hlt H]|[-> _]].
    + pose proof (inv_live _ HI _ _ H Ha). congruence.
    + done.
  - rewrite Htm. intros t H. by apply elem_of_nil in H.
  - intros sid ses t H Hi. apply lookup_snoc_Some in H as [[Hlt H]|[-> <-]].
    + by apply (inv_intervalId _ HI _ _ _ H).
    + done.
  - intros c cyc H. destruct (inv_pending _ HI _ _ H) as (? & x & Hx & Hk).
    split; [done|]. exists x. split; [|done]. by apply lookup_app_l_Some.
  - intros c1 c2 cyc1 cyc2 ses H1 H2 Heq H Hp.
    pose proof (pending_session_lt _ _ _ HI H1).
    apply lookup_snoc_Some in H as [[Hlt H]|[Hlen _]]; [|lia].
    by apply (inv_single _ HI _ _ _ _ ses H1 H2).
Qed.

Lemma Inv_setInterval sid ses ms s :
  Inv s → current s = Some sid → sessions s !! sid = Some ses →
  s_periodic ses = true → s_interval ses = ms → timers s = [] →
  Inv (setInterval sid ms s).1.
Proof.
  intros HI Hcur Hses Hper Hms Htm. pose proof (inv_next_timer _ HI) as Hnt.
  unfold setInterval. rewrite Htm. split; simpl.
  - lia.
  - intros x Hx. assert (x = sid) as -> by congruence.
    exists (set_intervalId (next_timer s) ses).
    rewrite list_lookup_alter_eq, Hses. split; [done|]. simpl.
    destruct (inv_current _ HI _ Hcur) as (? & ? & ?). congruence.
  - intros x y H Ha. destruct (decide (sid = x)) as [->|Hne].
    + by rewrite Hcur.
    + rewrite list_lookup_alter_ne in H by done.
      by apply (inv_live _ HI _ _ H).
  - intros t H. apply list_elem_of_singleton in H as ->. simpl.
    split; [unfold period_of; lia|].
    exists (set_intervalId (next_timer s) ses).
    rewrite list_lookup_alter_eq, Hses. simpl. repeat split; try done.
    destruct (inv_current _ HI _ Hcur) as (? & ? & ?). congruence.
  - lia.
  - intros x y t H Hi. destruct (decide (sid = x)) as [->|Hne].
    + rewrite list_lookup_alter_eq, Hses in H. simplify_eq/=.
      split; [done|lia].
    + rewrite list_lookup_alter_ne in H by done.
      destruct (inv_intervalId _ HI _ _ _ H Hi). split; [done|lia].
  - intros c cyc H. destruct (inv_pending _ HI _ _ H) as (? & x & Hx & Hk).
    split; [done|]. destruct (decide (sid = c_session cyc)) as [->|Hne].
    + exists (set_intervalId (next_timer s) x).
      by rewrite list_lookup_alter_eq, Hx.
    + exists x. by rewrite list_lookup_alter_ne.
  - intros c1 c2 cyc1 cyc2 ses' H1 H2 Heq H Hp.
    destruct (decide (sid = c_session cyc1)) as [->|Hne].
    + rewrite list_lookup_alter_eq, Hses in H. simplify_eq/=. congruence.
    + rewrite list_lookup_alter_ne in H by done.
      by apply (inv_single _ HI _ _ _ _ ses' H1 H2).
Qed.

(** The effect, once the previous session (if any) is cleaned up. *)
Lemma effect_add_session p s :
  effect p s =
    let '(s1, o1) := checkStorage (length (sessions s)) (add_session p s) in
    if enablePeriodicCheck_of (options p)
    then let '(s2, o2) :=
           setInterval (length (sessions s)) (checkInterval_of (options p)) s1
         in (s2, o1 ++ o2)
    else (s1, o1).
Proof. reflexivity. Qed.

Lemma Inv_effect p s : Inv s → current s = None → Inv (effect p s).1.
Proof.
  intros HI Hcur. rewrite effect_add_session.
  pose proof (Inv_add_session p _ HI Hcur) as HI0.
  pose proof (checkStorage_update (length (sessions s)) (add_session p s)) as Hu.
  assert (HI1 : Inv (checkStorage (length (sessions s)) (add_session p s)).1).
  { eapply Inv_invoke_update; [exact HI0|apply add_session_lookup| |exact Hu].
    right. intros c cyc H. pose proof (pending_session_lt _ _ _ HI H). lia. }
  destruct (checkStorage _ _) as [s1 o1] eqn:E. simpl in *.
  destruct Hu as (Hc1 & Hs1 & Ht1 & _).
  destruct (enablePeriodicCheck_of (options p)) eqn:Hper; [|done].
  change (Inv (setInterval (length (sessions s))
                 (checkInterval_of (options p)) s1).1).
  eapply Inv_setInterval; try done.
  - rewrite Hs1. apply add_session_lookup.
  - done.
  - done.
  - rewrite Ht1. simpl. by apply Inv_no_timers.
Qed.

Lemma observing_current d s :
  observing d s →
  ∃ sid ses, current s = Some sid ∧ sessions s !! sid = Some ses ∧
             session_deps ses = d.
Proof.
  unfold observing, observed. intros H.
  destruct (current s) as [sid|]; simplify_eq/=.
  destruct (sessions s !! sid) as [ses|] eqn:Hses; simplify_eq/=.
  by exists sid, ses.
Qed.

Lemma render_same p s : observing (deps_of p) s → render p s = (s, []).
Proof.
  intros H. destruct (observing_current _ _ H) as (sid & ses & Hcur & Hses & Hd).
  unfold render. rewrite Hcur, Hses. simpl. rewrite Hd.
  by rewrite bool_decide_eq_true_2.
Qed.

(** Otherwise the render goes through the cleanup of the session that is
    current (if any) and then through the effect. *)
Lemma render_restart p s :
  ¬ observing (deps_of p) s →
  render p s =
    let '(s1, o1) := unmount s in
    let '(s2, o2) := effect p s1 in (s2, o1 ++ o2).
Proof.
  intros Hn. unfold render, unmount. destruct (current s) as [sid|] eqn:Hcur.
  - rewrite bool_decide_eq_false_2.
    + by destruct (cleanup sid s) as [s1 o1].
    + intros H. apply Hn. unfold observing, observed. by rewrite Hcur.
  - by destruct (effect p s).
Qed.

Lemma unmount_current s : current (unmount s).1 = None.
Proof.
  unfold unmount, cleanup. destruct (current s) as [sid|] eqn:Hcur; [|done].
  destruct (sessions s !! sid ≫= intervalId) as [t|]; [|done].
  by destruct (negb (t =? 0)%nat).
Qed.

Lemma Inv_render p s : Inv s → Inv (render p s).1.
Proof.
  intros HI. destruct (decide (observing (deps_of p) s)) as [Ho|Hn].
  - by rewrite render_same.
  - rewrite render_restart by done.
    pose proof (Inv_unmount _ HI) as HI1.
    pose proof (unmount_current s) as Hc1.
    destruct (unmount s) as [s1 o1]. simpl in *.
    pose proof (Inv_effect p _ HI1 Hc1) as HI2.
    by destruct (effect p s1) as [s2 o2].
Qed.

Lemma elapse_left t : 1 ≤ t_left t ≤ period_of (t_period t) →
  1 ≤ t_left (elapse t) ≤ period_of (t_period t).
Proof.
  intros H. unfold elapse, due. simpl.
  destruct (Z.leb_spec (t_left t - 1) 0); unfold period_of in *; lia.
Qed.

Lemma Inv_elapse s : Inv s → Inv (set_timers (elapse <$> timers s) s).
Proof.
  intros HI. split; simpl; try apply HI.
  - intros t H. apply list_elem_of_fmap in H as (x & -> & Hx).
    destruct (inv_timers _ HI x Hx) as [Hl He].
    split; [exact (elapse_left _ Hl)|done].
  - rewrite length_fmap. apply HI.
Qed.

Lemma callbacks_sessions sids s :
  sessions (callbacks sids s).1 = sessions s ∧
  current (callbacks sids s).1 = current s ∧
  timers (callbacks sids s).1 = timers s ∧
  storageStatus (callbacks sids s).1 = storageStatus s.
Proof.
  revert s. induction sids as [|sid rest IH]; intros s; simpl; [done|].
  pose proof (checkStorage_update sid s) as (Hc & Hs & Ht & _ & Hst & _).
  destruct (checkStorage sid s) as [s1 o1]. specialize (IH s1).
  destruct (callbacks rest s1) as [s2 o2]. simpl in *.
  destruct IH as (-> & -> & -> & ->). done.
Qed.

Lemma Inv_callbacks sids s :
  Inv s →
  (∀ sid, sid ∈ sids →
     ∃ ses, sessions s !! sid = Some ses ∧ s_periodic ses = true) →
  Inv (callbacks sids s).1.
Proof.
  revert s. induction sids as [|sid rest IH]; intros s HI Hp; simpl; [done|].
  destruct (Hp sid) as (ses & Hses & Hper); [by left|].
  pose proof (checkStorage_update sid s) as Hu.
  assert (HI1 : Inv (checkStorage sid s).1)
    by (eapply Inv_invoke_update; eauto).
  destruct Hu as (_ & Hs & _).
  destruct (checkStorage sid s) as [s1 o1]. simpl in *.
  specialize (IH s1 HI1).
  destruct (callbacks rest s1) as [s2 o2]. simpl in *. apply IH.
  intros x Hx. rewrite Hs. apply Hp. by right.
Qed.

Lemma due_callbacks_periodic s sid :
  Inv s → sid ∈ t_callback <$> List.filter due (timers s) →
  ∃ ses, sessions s !! sid = Some ses ∧ s_periodic ses = true ∧
         aborted ses = false.
Proof.
  intros HI H. apply list_elem_of_fmap in H as (t & -> & Ht).
  apply list_elem_of_In, filter_In in Ht as [Ht _]. apply list_elem_of_In in Ht.
  destruct (inv_timers _ HI t Ht) as (_ & ses & Hses & Hab & Hid & _).
  destruct (inv_intervalId _ HI _ _ _ Hses Hid) as [Hper _]. eauto.
Qed.

Lemma Inv_tick s : Inv s → Inv (tick s).1.
Proof.
  intros HI. unfold tick. apply Inv_callbacks; [by apply Inv_elapse|].
  intros sid H. simpl.
  destruct (due_callbacks_periodic _ _ HI H) as (ses & ? & ? & _). eauto.
Qed.

Lemma Inv_step s e : Inv s → Inv (step s e).1.
Proof.
  intros HI. destruct e as [p| | |c r|c r]; simpl.
  - by apply Inv_render.
  - by apply Inv_unmount.
  - by apply Inv_tick.
  - eapply Inv_cycle_update; [done|apply hasEnoughSpace_settled_update].
  - eapply Inv_cycle_update; [done|apply getFreeDiskStorage_settled_update].
Qed.

Lemma run_cons s e evs :
  run s (e :: evs) =
    ((run (step s e).1 evs).1, (step s e).2 ++ (run (step s e).1 evs).2).
Proof.
  simpl. destruct (step s e) as [s1 o1]. simpl. by destruct (run s1 evs).
Qed.

Lemma run_cons_obs s e evs :
  (run s (e :: evs)).2 = (step s e).2 ++ (run (step s e).1 evs).2.
Proof. by rewrite run_cons. Qed.

Lemma run_cons_state s e evs :
  (run s (e :: evs)).1 = (run (step s e).1 evs).1.
Proof. by rewrite run_cons. Qed.

Lemma run_app s evs1 evs2 :
  run s (evs1 ++ evs2) =
    ((run (run s evs1).1 evs2).1,
     (run s evs1).2 ++ (run (run s evs1).1 evs2).2).
Proof.
  revert s. induction evs1 as [|e evs1 IH]; intros s.
  - simpl. by destruct (run s evs2).
  - rewrite <- app_comm_cons, !run_cons, IH. simpl. by rewrite app_assoc.
Qed.

Lemma Inv_run s evs : Inv s → Inv (run s evs).1.
Proof.
  revert s. induction evs as [|e evs IH]; intros s HI; [done|].
  rewrite run_cons. simpl. apply IH. by apply Inv_step.
Qed.

Lemma reachable_Inv s : reachable s → Inv s.
Proof. intros [evs ->]. apply Inv_run, Inv_init. Qed.

Lemma reachable_run s evs : reachable s → reachable (run s evs).1.
Proof.
  intros [evs0 ->]. exists (evs0 ++ evs). by rewrite run_app.
Qed.

(** ** Who acts in a step *)

Lemma async_tag sid c r o : o ∈ (async sid c r).2 → o.1 = sid.
Proof.
  unfold async. destruct (catch sid c r) as [[s acts] [|a|]]; simpl;
    rewrite ?elem_of_app, ?list_elem_of_singleton, list_elem_of_fmap;
    intros H; destruct_or?; destruct_and?; try destruct H as (x & -> & _);
    by subst.
Qed.

Lemma checkStorage_tag sid s o : o ∈ (checkStorage sid s).2 → o.1 = sid.
Proof.
  destruct (skips (store (model_of sid s))) eqn:Hk.
  - rewrite checkStorage_skip by done. simpl.
    intros H. apply list_elem_of_singleton in H. by subst.
  - rewrite checkStorage_query by done. simpl.
    rewrite elem_of_cons, list_elem_of_singleton. intros [->| ->]; done.
Qed.

Lemma callbacks_tag sids s o : o ∈ (callbacks sids s).2 → o.1 ∈ sids.
Proof.
  revert s. induction sids as [|sid rest IH]; intros s; simpl.
  - intros H. by apply elem_of_nil in H.
  - pose proof (checkStorage_tag sid s o) as Ht.
    destruct (checkStorage sid s) as [s1 o1]. specialize (IH s1).
    destruct (callbacks rest s1) as [s2 o2]. simpl in *.
    rewrite elem_of_app. intros [H|H].
    + rewrite Ht by done. by left.
    + right. by apply IH.
Qed.

Lemma effect_tag p s o : o ∈ (effect p s).2 → o.1 = length (sessions s).
Proof.
  rewrite effect_add_session.
  pose proof (checkStorage_tag (length (sessions s)) (add_session p s) o) as Ht.
  destruct (checkStorage _ _) as [s1 o1]. simpl in Ht.
  destruct (enablePeriodicCheck_of (options p)); [|done].
  unfold setInterval. simpl. rewrite elem_of_app, list_elem_of_singleton.
  intros [H| ->]; [by apply Ht|done].
Qed.

Lemma unmount_tag s o : o ∈ (unmount s).2 → current s = Some o.1.
Proof.
  unfold unmount, cleanup. destruct (current s) as [sid|]; simpl.
  2: { intros H. by apply elem_of_nil in H. }
  destruct (sessions s !! sid ≫= intervalId) as [t|]; simpl.
  - destruct (negb (t =? 0)%nat); simpl; intros H; elem_cases H; done.
  - intros H. elem_cases H. done.
Qed.

Lemma hasEnoughSpace_settled_tag c r s o :
  o ∈ (hasEnoughSpace_settled c r s).2 →
  ∃ cyc, pending s !! c = Some cyc ∧ c_at cyc = AwaitHasEnoughSpace ∧
         o.1 = c_session cyc ∧ signal_aborted (c_session cyc) s = false.
Proof.
  unfold hasEnoughSpace_settled.
  destruct (pending s !! c) as [[sid []]|] eqn:Hc; simpl;
    try (intros H; by apply elem_of_nil in H).
  intros H. eexists. split; [done|]. simpl. split; [done|].
  split; [by eapply async_tag|].
  destruct (signal_aborted sid s) eqn:Ha; [|done].
  rewrite async_hasEnoughSpace_stale in H by done. by apply elem_of_nil in H.
Qed.

Lemma getFreeDiskStorage_settled_tag c r s o :
  o ∈ (getFreeDiskStorage_settled c r s).2 →
  ∃ cyc, pending s !! c = Some cyc ∧ c_at cyc = AwaitFreeDiskStorage ∧
         o.1 = c_session cyc ∧ signal_aborted (c_session cyc) s = false.
Proof.
  unfold getFreeDiskStorage_settled.
  destruct (pending s !! c) as [[sid []]|] eqn:Hc; simpl;
    try (intros H; by apply elem_of_nil in H).
  intros H. eexists. split; [done|]. simpl. split; [done|].
  split; [by eapply async_tag|].
  destruct (signal_aborted sid s) eqn:Ha; [|done].
  rewrite async_getFreeDiskStorage_stale in H by done.
  by apply elem_of_nil in H.
Qed.

Lemma live_is_current s sid :
  Inv s → signal_aborted sid s = false → current s = Some sid.
Proof.
  intros HI H. unfold signal_aborted in H.
  destruct (sessions s !! sid) as [ses|] eqn:Hses; [|done].
  by apply (inv_live _ HI _ ses).
Qed.

(** Only the current session acts, or the one a render has just started. *)
Lemma step_actor s e o :
  Inv s → o ∈ (step s e).2 →
  current s = Some o.1 ∨
  (o.1 = length (sessions s) ∧
   ∃ p, e = Render p ∧ ¬ observing (deps_of p) s).
Proof.
  intros HI H. destruct e as [p| | |c r|c r]; simpl in H.
  - destruct (decide (observing (deps_of p) s)) as [Ho|Hn].
    { rewrite render_same in H by done. by apply elem_of_nil in H. }
    rewrite render_restart in H by done.
    pose proof (unmount_tag s o) as Hu.
    assert (Hlen : length (sessions (unmount s).1) = length (sessions s)).
    { destruct (current s) as [cur|] eqn:Hcur.
      - destruct (inv_current _ HI _ Hcur) as (ses & Hses & _).
        rewrite (unmount_spec _ _ _ HI Hcur Hses). simpl.
        apply length_alter.
      - unfold unmount. by rewrite Hcur. }
    destruct (unmount s) as [s1 o1].
    pose proof (effect_tag p s1 o) as He.
    destruct (effect p s1) as [s2 o2]. simpl in *.
    apply elem_of_app in H as [H|H]; [left; by apply Hu|].
    right. split; [by rewrite He, Hlen|]. eauto.
  - left. by apply unmount_tag.
  - left. apply callbacks_tag in H.
    destruct (due_callbacks_periodic _ _ HI H) as (ses & Hses & _ & Hab).
    by apply (inv_live _ HI _ ses).
  - apply hasEnoughSpace_settled_tag in H as (cyc & _ & _ & -> & Ha).
    left. by apply live_is_current.
  - apply getFreeDiskStorage_settled_tag in H as (cyc & _ & _ & -> & Ha).
    left. by apply live_is_current.
Qed.

(** Sessions are only ever added, and the current one is either kept,
    dropped, or the one just added. *)
Lemma step_sessions_length s e :
  Inv s → (length (sessions s) ≤ length (sessions (step s e).1))%nat.
Proof.
  intros HI.
  assert (Hun : length (sessions (unmount s).1) = length (sessions s)).
  { destruct (current s) as [cur|] eqn:Hcur.
    - destruct (inv_current _ HI _ Hcur) as (ses & Hses & _).
      rewrite (unmount_spec _ _ _ HI Hcur Hses). simpl. apply length_alter.
    - unfold unmount. by rewrite Hcur. }
  destruct e as [p| | |c r|c r]; simpl.
  - destruct (decide (observing (deps_of p) s)) as [Ho|Hn].
    { by rewrite render_same. }
    rewrite render_restart by done. destruct (unmount s) as [s1 o1].
    rewrite effect_add_session.
    pose proof (checkStorage_update (length (sessions s1)) (add_session p s1))
      as (_ & Hs & _).
    destruct (checkStorage _ _) as [s2 o2]. simpl in *.
    destruct (enablePeriodicCheck_of (options p)); simpl;
      rewrite ?length_alter, Hs, length_app; simpl; lia.
  - lia.
  - unfold tick. by destruct (callbacks_sessions
      (t_callback <$> List.filter due (timers s))
      (set_timers (elapse <$> timers s) s)) as (-> & _).
  - by destruct (hasEnoughSpace_settled_update c r s) as (_ & -> & _).
  - by destruct (getFreeDiskStorage_settled_update c r s) as (_ & -> & _).
Qed.

Lemma step_current s e x :
  Inv s → current (step s e).1 = Some x →
  current s = Some x ∨ (length (sessions s) ≤ x)%nat.
Proof.
  intros HI H. destruct e as [p| | |c r|c r]; simpl in H.
  - destruct (decide (observing (deps_of p) s)) as [Ho|Hn].
    { rewrite render_same in H by done. by left. }
    right. rewrite render_restart in H by done.
    assert (Hun : length (sessions (unmount s).1) = length (sessions s)).
    { destruct (current s) as [cur|] eqn:Hcur.
      - destruct (inv_current _ HI _ Hcur) as (ses & Hses & _).
        rewrite (unmount_spec _ _ _ HI Hcur Hses). simpl. apply length_alter.
      - unfold unmount. by rewrite Hcur. }
    destruct (unmount s) as [s1 o1]. rewrite effect_add_session in H.
    pose proof (checkStorage_update (length (sessions s1)) (add_session p s1))
      as (Hc & _).
    destruct (checkStorage _ _) as [s2 o2]. simpl in *.
    destruct (enablePeriodicCheck_of (options p)); simpl in H;
      rewrite Hc in H; simplify_eq; lia.
  - by rewrite unmount_current in H.
  - left. unfold tick in H. destruct (callbacks_sessions
      (t_callback <$> List.filter due (timers s))
      (set_timers (elapse <$> timers s) s)) as (_ & Hc & _).
    by rewrite Hc in H.
  - left. by destruct (hasEnoughSpace_settled_update c r s) as (<- & _).
  - left. by destruct (getFreeDiskStorage_settled_update c r s) as (<- & _).
Qed.

(** Over a whole run: the current session and those started later. *)
Lemma run_actor s evs o :
  Inv s → o ∈ (run s evs).2 →
  current s = Some o.1 ∨ (length (sessions s) ≤ o.1)%nat.
Proof.
  revert s. induction evs as [|e evs IH]; intros s HI H.
  { by apply elem_of_nil in H. }
  rewrite run_cons in H. simpl in H. apply elem_of_app in H as [H|H].
  - destruct (step_actor _ _ _ HI H) as [?|[? _]]; [by left|right; lia].
  - pose proof (step_sessions_length s e HI).
    destruct (IH _ (Inv_step _ e HI) H) as [Hc|Hl]; [|right; lia].
    destruct (step_current _ _ _ HI Hc); [by left|by right].
Qed.

(** A cancelled session never acts again. *)
Lemma aborted_silent s sid ses evs o :
  Inv s → sessions s !! sid = Some ses → aborted ses = true →
  o ∈ (run s evs).2 → o.1 ≠ sid.
Proof.
  intros HI Hses Hab H <-.
  destruct (run_actor _ _ _ HI H) as [Hc|Hl].
  - destruct (inv_current _ HI _ Hc) as (x & Hx & Hxa). congruence.
  - apply lookup_lt_Some in Hses. lia.
Qed.

(** ** The published status follows the calls of [setStorageStatus] *)

Lemma lifecycle_quiet o : lifecycle o = true → sets_status o = false.
Proof. destruct o as [sid []]; done. Qed.

Lemma last_status_app st o1 o2 :
  last_status st (o1 ++ o2) = last_status (last_status st o1) o2.
Proof.
  revert st. induction o1 as [|[sid a] o1 IH]; intros st; [done|].
  destruct a; simpl; apply IH.
Qed.

Lemma last_status_quiet st obs :
  (∀ o, o ∈ obs → sets_status o = false) → last_status st obs = st.
Proof.
  induction obs as [|[sid a] obs IH]; intros H; [done|].
  assert (Ha : sets_status (sid, a) = false) by (apply H; by left).
  assert (Hr : last_status st obs = st).
  { apply IH. intros o Ho. apply H. by right. }
  destruct a; simpl; try done.
Qed.

Lemma checkStorage_lifecycle sid s o :
  o ∈ (checkStorage sid s).2 → lifecycle o = true.
Proof.
  destruct (skips (store (model_of sid s))) eqn:Hk.
  - rewrite checkStorage_skip by done. simpl. intros H. by elem_cases H.
  - rewrite checkStorage_query by done. simpl. intros H. by elem_cases H.
Qed.

Lemma callbacks_lifecycle sids s o :
  o ∈ (callbacks sids s).2 → lifecycle o = true.
Proof.
  revert s. induction sids as [|sid rest IH]; intros s; simpl.
  - intros H. by apply elem_of_nil in H.
  - pose proof (checkStorage_lifecycle sid s o) as Hq.
    destruct (checkStorage sid s) as [s1 o1]. specialize (IH s1).
    destruct (callbacks rest s1) as [s2 o2]. simpl in *.
    rewrite elem_of_app. intros [H|H]; eauto.
Qed.

Lemma unmount_lifecycle s o : o ∈ (unmount s).2 → lifecycle o = true.
Proof.
  unfold unmount, cleanup. destruct (current s) as [sid|]; simpl.
  2: { intros H. by apply elem_of_nil in H. }
  destruct (sessions s !! sid ≫= intervalId) as [t|]; simpl.
  - destruct (negb (t =? 0)%nat); simpl; intros H; elem_cases H; done.
  - intros H. elem_cases H. done.
Qed.

Lemma unmount_status s : storageStatus (unmount s).1 = storageStatus s.
Proof.
  unfold unmount, cleanup. destruct (current s) as [sid|]; simpl; [|done].
  destruct (sessions s !! sid ≫= intervalId) as [t|]; simpl; [|done].
  by destruct (negb (t =? 0)%nat).
Qed.

Lemma effect_lifecycle p s o : o ∈ (effect p s).2 → lifecycle o = true.
Proof.
  rewrite effect_add_session.
  pose proof (checkStorage_lifecycle (length (sessions s)) (add_session p s) o)
    as Hq.
  destruct (checkStorage _ _) as [s1 o1]. simpl in Hq.
  destruct (enablePeriodicCheck_of (options p)); [|done].
  unfold setInterval. simpl. rewrite elem_of_app.
  intros [H|H]; [by apply Hq|by elem_cases H].
Qed.

Lemma effect_status p s : storageStatus (effect p s).1 = storageStatus s.
Proof.
  rewrite effect_add_session.
  pose proof (checkStorage_update (length (sessions s)) (add_session p s))
    as (_ & _ & _ & _ & Hst & _).
  destruct (checkStorage _ _) as [s1 o1]. simpl in Hst.
  by destruct (enablePeriodicCheck_of (options p)).
Qed.

(** A render never touches the state cell. *)
Lemma render_status p s :
  storageStatus (render p s).1 = storageStatus s ∧
  ∀ o, o ∈ (render p s).2 → lifecycle o = true.
Proof.
  destruct (decide (observing (deps_of p) s)) as [Ho|Hn].
  { rewrite render_same by done. split; [done|].
    intros o H. by apply elem_of_nil in H. }
  rewrite render_restart by done.
  pose proof (unmount_status s) as Hu. pose proof (unmount_lifecycle s) as Hq.
  destruct (unmount s) as [s1 o1].
  pose proof (effect_status p s1) as He.
  pose proof (effect_lifecycle p s1) as Hq'.
  destruct (effect p s1) as [s2 o2]. simpl in *. split; [congruence|].
  intros o H. apply elem_of_app in H as [H|H]; eauto.
Qed.

Lemma step_status s e :
  storageStatus (step s e).1 = last_status (storageStatus s) (step s e).2.
Proof.
  destruct e as [p| | |c r|c r]; simpl.
  - destruct (render_status p s) as [-> Hq].
    rewrite last_status_quiet; [done|]. intros o H. by apply lifecycle_quiet, Hq.
  - rewrite unmount_status, last_status_quiet; [done|].
    intros o H. by eapply lifecycle_quiet, unmount_lifecycle.
  - unfold tick.
    destruct (callbacks_sessions (t_callback <$> List.filter due (timers s))
                (set_timers (elapse <$> timers s) s)) as (_ & _ & _ & ->).
    rewrite last_status_quiet; [done|].
    intros o H. by eapply lifecycle_quiet, callbacks_lifecycle.
  - unfold hasEnoughSpace_settled.
    destruct (pending s !! c) as [[sid []]|]; try done.
    unfold async, after_hasEnoughSpace, catch.
    by destruct r as [[]|]; destruct (signal_aborted sid s).
  - unfold getFreeDiskStorage_settled.
    destruct (pending s !! c) as [[sid []]|]; try done.
    unfold async, after_getFreeDiskStorage, catch.
    by destruct r as [?|]; destruct (signal_aborted sid s).
Qed.

Lemma run_status s evs :
  storageStatus (run s evs).1 = last_status (storageStatus s) (run s evs).2.
Proof.
  revert s. induction evs as [|e evs IH]; intros s; [done|].
  rewrite run_cons. simpl. by rewrite IH, step_status, last_status_app.
Qed.

(** After the cleanup and before a next render nothing happens at all. *)
Lemma torn_down_silent s evs :
  Inv s → current s = None → (∀ p, Render p ∉ evs) →
  (run s evs).2 = [] ∧ current (run s evs).1 = None.
Proof.
  revert s. induction evs as [|e evs IH]; intros s HI Hcur Hn; [done|].
  rewrite run_cons. simpl.
  assert (Hs : (step s e).2 = []).
  { apply elem_of_nil_inv. intros o Ho.
    destruct (step_actor _ _ _ HI Ho) as [Hc|(_ & p & -> & _)].
    - congruence.
    - apply (Hn p). by left. }
  assert (Hc : current (step s e).1 = None).
  { destruct (current (step s e).1) as [x|] eqn:Hx; [|done].
    destruct (step_current _ _ _ HI Hx) as [?|Hl]; [congruence|].
    destruct e as [p| | |c r|c r].
    - exfalso. apply (Hn p). by left.
    - simpl in Hx. by rewrite unmount_current in Hx.
    - unfold step, tick in Hx. destruct (callbacks_sessions
        (t_callback <$> List.filter due (timers s))
        (set_timers (elapse <$> timers s) s)) as (_ & Hc & _).
      rewrite Hc in Hx. simpl in Hx. congruence.
    - destruct (hasEnoughSpace_settled_update c r s) as (Hc & _).
      simpl in Hx. congruence.
    - destruct (getFreeDiskStorage_settled_update c r s) as (Hc & _).
      simpl in Hx. congruence. }
  destruct (IH (step s e).1) as [-> ->]; [by apply Inv_step|done| |].
  - intros p Hp. apply (Hn p). by right.
  - by rewrite Hs.
Qed.

(** ** What a step does at a settled promise *)

Lemma step_lifecycle s e o :
  o ∈ (step s e).2 →
  match e with
  | HasEnoughSpaceSettled _ _ | FreeDiskStorageSettled _ _ => True
  | _ => lifecycle o = true
  end.
Proof.
  destruct e as [p| | |c r|c r]; simpl; try done.
  - apply render_status.
  - apply unmount_lifecycle.
  - apply callbacks_lifecycle.
Qed.

Lemma step_hasEnoughSpace s c sid r :
  pending s !! c = Some {| c_session := sid; c_at := AwaitHasEnoughSpace |} →
  step s (HasEnoughSpaceSettled c r) =
    async sid c (after_hasEnoughSpace sid c r s).
Proof. intros H. simpl. unfold hasEnoughSpace_settled. by rewrite H. Qed.

Lemma step_getFreeDiskStorage s c sid r :
  pending s !! c = Some {| c_session := sid; c_at := AwaitFreeDiskStorage |} →
  step s (FreeDiskStorageSettled c r) =
    async sid c (after_getFreeDiskStorage sid c r s).
Proof. intros H. simpl. unfold getFreeDiskStorage_settled. by rewrite H. Qed.

(** The free-space query is made at one place only. *)
Lemma getFreeDiskStorage_only s e o c k :
  o ∈ (step s e).2 → o.2 = AGetFreeDiskStorage c k →
  e = HasEnoughSpaceSettled c (Fulfilled false).
Proof.
  intros H Ho. pose proof (step_lifecycle _ _ _ H) as Hl.
  destruct e as [p| | |c' r|c' r];
    try (destruct o as [? []]; by simplify_eq/=); simpl in H.
  - unfold hasEnoughSpace_settled in H.
    destruct (pending s !! c') as [[sid []]|]; try by elem_cases H.
    unfold async, after_hasEnoughSpace, catch in H.
    destruct r as [[]|]; destruct (signal_aborted sid s); simpl in H;
      elem_cases H; by simplify_eq/=.
  - unfold getFreeDiskStorage_settled in H.
    destruct (pending s !! c') as [[sid []]|]; try by elem_cases H.
    unfold async, after_getFreeDiskStorage, catch in H.
    destruct r as [?|]; destruct (signal_aborted sid s); simpl in H;
      elem_cases H; by simplify_eq/=.
Qed.

(** No call of [checkStorage] ends in a rejected promise. *)
Lemma step_handled s e o c :
  o ∈ (step s e).2 → o.2 ≠ AUnhandledRejection c.
Proof.
  intros H Ho. pose proof (step_lifecycle _ _ _ H) as Hl.
  destruct e as [p| | |c' r|c' r];
    try (destruct o as [? []]; by simplify_eq/=); simpl in H.
  - unfold hasEnoughSpace_settled in H.
    destruct (pending s !! c') as [[sid []]|]; try by elem_cases H.
    unfold async, after_hasEnoughSpace, catch in H.
    destruct r as [[]|]; destruct (signal_aborted sid s); simpl in H;
      elem_cases H; by simplify_eq/=.
  - unfold getFreeDiskStorage_settled in H.
    destruct (pending s !! c') as [[sid []]|]; try by elem_cases H.
    unfold async, after_getFreeDiskStorage, catch in H.
    destruct r as [?|]; destruct (signal_aborted sid s); simpl in H;
      elem_cases H; by simplify_eq/=.
Qed.

Lemma cancelled_discards s c cyc ses e :
  pending s !! c = Some cyc → sessions s !! c_session cyc = Some ses →
  aborted ses = true → settles cyc c e →
  step s e = (set_pending (delete c (pending s)) s, []).
Proof.
  intros Hc Hses Hab He. destruct cyc as [sid w]. simpl in *.
  pose proof (signal_aborted_lookup _ _ _ Hses) as Hs. rewrite Hab in Hs.
  unfold settles in He. simpl in He.
  destruct w, e as [p| | |c' r|c' r]; try done; subst c'.
  - rewrite (step_hasEnoughSpace _ _ _ _ Hc).
    by apply async_hasEnoughSpace_stale.
  - rewrite (step_getFreeDiskStorage _ _ _ _ Hc).
    by apply async_getFreeDiskStorage_stale.
Qed.

(** C1: a check cycle whose session is cancelled while it is in flight
    ends, whatever its promise brings, without an action and without a
    change of the published status; the cancelled session has no timer
    left and never acts again (no call of [checkStorage], no status
    update); and once the hook is torn down nothing is emitted and the
    status stays as it is until a next render. *)
Theorem C1_cancelled_cycle_is_discarded s c cyc ses e evs :
  reachable s →
  pending s !! c = Some cyc →
  sessions s !! c_session cyc = Some ses → aborted ses = true →
  settles cyc c e →
  step s e = (set_pending (delete c (pending s)) s, []) ∧
  storageStatus (step s e).1 = storageStatus s ∧
  (∀ t, t ∈ timers s → t_callback t ≠ c_session cyc) ∧
  (∀ o, o ∈ (run s evs).2 → o.1 ≠ c_session cyc) ∧
  (current s = None → (∀ p, Render p ∉ evs) →
   (run s evs).2 = [] ∧ storageStatus (run s evs).1 = storageStatus s).
Proof.
  intros Hr Hc Hses Hab He. pose proof (reachable_Inv _ Hr) as HI.
  rewrite (cancelled_discards _ _ _ _ _ Hc Hses Hab He).
  repeat split; try done.
  - intros t Ht Heq. destruct (inv_timers _ HI t Ht) as (_ & x & Hx & Hxa & _).
    rewrite Heq in Hx. congruence.
  - intros o Ho. by eapply aborted_silent.
  - by apply torn_down_silent.
  - rewrite run_status.
    destruct (torn_down_silent s evs HI) as [-> _]; done.
Qed.

(** C4: for a model that is neither downloaded nor local, a call of
    [checkStorage] asks [hasEnoughSpace] and suspends; when the session is
    still live and the answer is [true] the cycle sets [{isOk: true,
    message: ''}]; when it is [false] the cycle asks for the free disk
    space and, on the answer, sets the [Storage low!] status made of the
    two formatted sizes; and no other step ever asks for the free disk
    space. *)
Theorem C4_completed_cycle s sid ses :
  sessions s !! sid = Some ses →
  skips (store (s_model ses)) = false →
  let c := next_cycle s in
  (checkStorage sid s).2 =
    [(sid, AInvoke c); (sid, AHasEnoughSpace c (s_model ses))] ∧
  pending (checkStorage sid s).1 !! c =
    Some {| c_session := sid; c_at := AwaitHasEnoughSpace |} ∧
  (∀ s' ses',
     sessions s' !! sid = Some ses' → aborted ses' = false →
     s_model ses' = s_model ses →
     pending s' !! c = Some {| c_session := sid; c_at := AwaitHasEnoughSpace |} →
     step s' (HasEnoughSpaceSettled c (Fulfilled true)) =
       (set_pending (delete c (pending s'))
          (set_storageStatus {| isOk := true; message := "" |} s'),
        [(sid, ASetStorageStatus c {| isOk := true; message := "" |})]) ∧
     step s' (HasEnoughSpaceSettled c (Fulfilled false)) =
       (set_pending
          (<[c := {| c_session := sid; c_at := AwaitFreeDiskStorage |}]>
             (pending s')) s',
        [(sid, AGetFreeDiskStorage c "important")])) ∧
  (∀ s' ses' freeDisk,
     sessions s' !! sid = Some ses' → aborted ses' = false →
     s_model ses' = s_model ses →
     pending s' !! c = Some {| c_session := sid; c_at := AwaitFreeDiskStorage |} →
     let st := {| isOk := false;
                  message := "Storage low! Model "
                    +:+ formatBytes (size (store (s_model ses))) +:+ " > "
                    +:+ formatBytes freeDisk +:+ " free" |} in
     step s' (FreeDiskStorageSettled c (Fulfilled freeDisk)) =
       (set_pending (delete c (pending s')) (set_storageStatus st s'),
        [(sid, ASetStorageStatus c st)])) ∧
  (∀ s' e o c' k,
     o ∈ (step s' e).2 → o.2 = AGetFreeDiskStorage c' k →
     e = HasEnoughSpaceSettled c' (Fulfilled false)).
Proof.
  intros Hses Hk c. subst c. pose proof (model_of_lookup _ _ _ Hses) as Hm.
  rewrite checkStorage_query by by rewrite Hm. simpl. rewrite Hm.
  split; [done|]. split; [by rewrite lookup_insert_eq|].
  split; [|split].
  - intros s' ses' Hs' Ha' _ Hp.
    pose proof (signal_aborted_lookup _ _ _ Hs') as Hsig. rewrite Ha' in Hsig.
    unfold hasEnoughSpace_settled. rewrite Hp.
    by rewrite async_hasEnoughSpace_true, async_hasEnoughSpace_false.
  - intros s' ses' freeDisk Hs' Ha' Hm' Hp.
    pose proof (signal_aborted_lookup _ _ _ Hs') as Hsig. rewrite Ha' in Hsig.
    unfold getFreeDiskStorage_settled. rewrite Hp.
    rewrite async_getFreeDiskStorage_value by done.
    by rewrite (model_of_lookup _ _ _ Hs'), Hm'.
  - intros s' e o c' k. apply getFreeDiskStorage_only.
Qed.

(** C5: when the promise a live cycle is waiting for is rejected, at
    either await, the cycle logs the error, sets [{isOk: false, message:
    'Failed to check storage'}] and ends; and no step of the hook ever
    leaves a rejected promise behind. *)
Theorem C5_failure_is_absorbed s c cyc ses e :
  pending s !! c = Some cyc →
  sessions s !! c_session cyc = Some ses → aborted ses = false →
  rejects cyc c e →
  step s e =
    (set_pending (delete c (pending s))
       (set_storageStatus
          {| isOk := false; message := "Failed to check storage" |} s),
     [(c_session cyc, AConsoleError c);
      (c_session cyc,
       ASetStorageStatus c
         {| isOk := false; message := "Failed to check storage" |})]) ∧
  (∀ s' e' o c', o ∈ (step s' e').2 → o.2 ≠ AUnhandledRejection c').
Proof.
  intros Hc Hses Hab He. split; [|intros s' e' o c'; apply step_handled].
  destruct cyc as [sid w]. simpl in *.
  pose proof (signal_aborted_lookup _ _ _ Hses) as Hs. rewrite Hab in Hs.
  unfold rejects in He. simpl in He.
  destruct w, e as [p| | |c' [?|]|c' [?|]]; try done; subst c'.
  - rewrite (step_hasEnoughSpace _ _ _ _ Hc).
    by apply async_hasEnoughSpace_rejected.
  - rewrite (step_getFreeDiskStorage _ _ _ _ Hc).
    by apply async_getFreeDiskStorage_rejected.
Qed.

(** C10: when [hasEnoughSpace] answers "not enough" to a cycle whose
    session is cancelled, the cycle ends there: it does not ask for the
    free disk space, and its session performs no action afterwards. *)
Theorem C10_no_query_after_cancellation s c sid ses evs :
  reachable s →
  pending s !! c = Some {| c_session := sid; c_at := AwaitHasEnoughSpace |} →
  sessions s !! sid = Some ses → aborted ses = true →
  step s (HasEnoughSpaceSettled c (Fulfilled false)) =
    (set_pending (delete c (pending s)) s, []) ∧
  (∀ o k, o ∈ (step s (HasEnoughSpaceSettled c (Fulfilled false))).2 →
          o.2 ≠ AGetFreeDiskStorage c k) ∧
  (∀ o, o ∈ (run s evs).2 → o.1 ≠ sid).
Proof.
  intros Hr Hc Hses Hab. pose proof (reachable_Inv _ Hr) as HI.
  pose proof (signal_aborted_lookup _ _ _ Hses) as Hs. rewrite Hab in Hs.
  rewrite (step_hasEnoughSpace _ _ _ _ Hc), async_hasEnoughSpace_stale by done.
  repeat split.
  - intros o k H. by apply elem_of_nil in H.
  - intros o Ho. by eapply aborted_silent.
Qed.

(** ** The start of a session *)

Lemma effect_spec p s :
  (effect p s).2 =
    started_actions p (length (sessions s)) (next_cycle s) (next_timer s) ∧
  current (effect p s).1 = Some (length (sessions s)) ∧
  sessions (effect p s).1 = sessions s ++ [started_session p (next_timer s)] ∧
  timers (effect p s).1 =
    timers s ++ started_timer p (length (sessions s)) (next_timer s) ∧
  storageStatus (effect p s).1 = storageStatus s.
Proof.
  rewrite effect_add_session.
  assert (Hm : model_of (length (sessions s)) (add_session p s) = model p).
  { unfold model_of. by rewrite add_session_lookup. }
  assert (Ha : ∀ t, alter (set_intervalId t) (length (sessions s))
                      (sessions s ++ [fresh_session p]) =
                    sessions s ++ [set_intervalId t (fresh_session p)]).
  { intros t. rewrite alter_app_r_alt by lia. by rewrite Nat.sub_diag. }
  unfold started_actions, started_session, started_timer.
  destruct (skips (store (model p))) eqn:Hk.
  - rewrite checkStorage_skip by by rewrite Hm.
    destruct (enablePeriodicCheck_of (options p)); simpl;
      rewrite ?Ha, ?app_nil_r; done.
  - rewrite checkStorage_query by by rewrite Hm. rewrite Hm.
    destruct (enablePeriodicCheck_of (options p)); simpl;
      rewrite ?Ha, ?app_nil_r; done.
Qed.

Lemma unmount_frame s :
  Inv s →
  length (sessions (unmount s).1) = length (sessions s) ∧
  next_timer (unmount s).1 = next_timer s ∧
  next_cycle (unmount s).1 = next_cycle s ∧
  pending (unmount s).1 = pending s ∧
  timers (unmount s).1 = [] ∧
  (∀ sid ses, sessions (unmount s).1 !! sid = Some ses → aborted ses = true).
Proof.
  intros HI. pose proof (Inv_unmount _ HI) as HI1.
  pose proof (unmount_current s) as Hc1.
  assert (Hab : ∀ sid ses,
             sessions (unmount s).1 !! sid = Some ses → aborted ses = true).
  { intros sid ses H. destruct (aborted ses) eqn:Ha; [done|].
    pose proof (inv_live _ HI1 _ _ H Ha). congruence. }
  split; [|split; [|split; [|split; [|split]]]]; try done.
  - destruct (current s) as [cur|] eqn:Hcur.
    + destruct (inv_current _ HI _ Hcur) as (ses & Hses & _).
      rewrite (unmount_spec _ _ _ HI Hcur Hses). simpl. apply length_alter.
    + unfold unmount. by rewrite Hcur.
  - destruct (current s) as [cur|] eqn:Hcur.
    + destruct (inv_current _ HI _ Hcur) as (ses & Hses & _).
      by rewrite (unmount_spec _ _ _ HI Hcur Hses).
    + unfold unmount. by rewrite Hcur.
  - destruct (current s) as [cur|] eqn:Hcur.
    + destruct (inv_current _ HI _ Hcur) as (ses & Hses & _).
      by rewrite (unmount_spec _ _ _ HI Hcur Hses).
    + unfold unmount. by rewrite Hcur.
  - destruct (current s) as [cur|] eqn:Hcur.
    + destruct (inv_current _ HI _ Hcur) as (ses & Hses & _).
      by rewrite (unmount_spec _ _ _ HI Hcur Hses).
    + unfold unmount. by rewrite Hcur.
  - by apply Inv_no_timers.
Qed.

(** A render that brings new dependencies: the cleanup of the session
    that was current, then a fresh session with its immediate check and,
    if asked for, its timer. *)
Lemma render_start p s :
  Inv s → ¬ observing (deps_of p) s →
  (render p s).2 =
    (unmount s).2 ++
    started_actions p (length (sessions s)) (next_cycle s) (next_timer s) ∧
  current (render p s).1 = Some (length (sessions s)) ∧
  sessions (render p s).1 !! length (sessions s) =
    Some (started_session p (next_timer s)) ∧
  length (sessions (render p s).1) = S (length (sessions s)) ∧
  timers (render p s).1 =
    started_timer p (length (sessions s)) (next_timer s) ∧
  (∀ sid ses, (sid < length (sessions s))%nat →
     sessions (render p s).1 !! sid = Some ses → aborted ses = true).
Proof.
  intros HI Hn. rewrite render_restart by done.
  destruct (unmount_frame s HI) as (Hlen & Hnt & Hnc & _ & Htm & Hab).
  destruct (unmount s) as [s1 o1]. simpl in *.
  destruct (effect_spec p s1) as (Ho & Hc & Hs & Ht & _).
  destruct (effect p s1) as [s2 o2]. simpl in *.
  rewrite Ho, Hc, Hs, Ht, Htm, Hlen, Hnt, Hnc.
  repeat split; try done.
  - rewrite <- Hlen. apply list_lookup_middle. done.
  - rewrite length_app. simpl. lia.
  - intros sid ses Hlt H. rewrite lookup_app_l in H by lia. by eapply Hab.
Qed.

(** ** While a session lasts *)

Lemma step_keeps s d e :
  Inv s → observing d s → keeps d e = true →
  current (step s e).1 = current s ∧
  sessions (step s e).1 = sessions s ∧
  ∀ o, o ∈ (step s e).2 → current s = Some o.1.
Proof.
  intros HI Ho Hk.
  assert (Hact : ∀ o, o ∈ (step s e).2 → current s = Some o.1).
  { intros o H. destruct (step_actor _ _ _ HI H) as [?|(_ & p & -> & Hn)];
      [done|]. simpl in Hk. apply bool_decide_eq_true in Hk. by subst. }
  split; [|split]; [| |done].
  - destruct e as [p| | |c r|c r]; simpl in *; try done.
    + apply bool_decide_eq_true in Hk. subst. by rewrite render_same.
    + unfold tick. by destruct (callbacks_sessions
        (t_callback <$> List.filter due (timers s))
        (set_timers (elapse <$> timers s) s)) as (_ & -> & _).
    + by destruct (hasEnoughSpace_settled_update c r s) as (-> & _).
    + by destruct (getFreeDiskStorage_settled_update c r s) as (-> & _).
  - destruct e as [p| | |c r|c r]; simpl in *; try done.
    + apply bool_decide_eq_true in Hk. subst. by rewrite render_same.
    + unfold tick. by destruct (callbacks_sessions
        (t_callback <$> List.filter due (timers s))
        (set_timers (elapse <$> timers s) s)) as (-> & _).
    + by destruct (hasEnoughSpace_settled_update c r s) as (_ & -> & _).
    + by destruct (getFreeDiskStorage_settled_update c r s) as (_ & -> & _).
Qed.

Lemma observing_frame d s s' :
  current s' = current s → sessions s' = sessions s →
  observing d s → observing d s'.
Proof. unfold observing, observed. by intros -> ->. Qed.

Lemma run_keeps s d evs :
  Inv s → observing d s → forallb (keeps d) evs = true →
  current (run s evs).1 = current s ∧
  sessions (run s evs).1 = sessions s ∧
  ∀ o, o ∈ (run s evs).2 → current s = Some o.1.
Proof.
  revert s. induction evs as [|e evs IH]; intros s HI Ho Hk.
  { repeat split; try done. intros o H. by apply elem_of_nil in H. }
  simpl in Hk. apply andb_true_iff in Hk as [Hke Hk].
  destruct (step_keeps _ _ _ HI Ho Hke) as (Hc & Hs & Ha).
  destruct (IH _ (Inv_step _ e HI) (observing_frame _ _ _ Hc Hs Ho) Hk)
    as (Hc' & Hs' & Ha').
  rewrite run_cons. simpl. rewrite Hc', Hs', Hc, Hs. repeat split; try done.
  intros o H. apply elem_of_app in H as [H|H]; [by apply Ha|].
  rewrite <- Hc. by apply Ha'.
Qed.

(** ** Counting check cycles *)

Lemma invocations_app sid o1 o2 :
  invocations sid (o1 ++ o2) = (invocations sid o1 + invocations sid o2)%nat.
Proof. unfold invocations. by rewrite List.filter_app, length_app. Qed.

Lemma invocations_none sid obs :
  (∀ o, o ∈ obs → invoked_by sid o = false) → invocations sid obs = 0%nat.
Proof.
  unfold invocations. induction obs as [|o obs IH]; intros H; [done|].
  simpl. rewrite H by by left. apply IH. intros x Hx. apply H. by right.
Qed.

Lemma checkStorage_invocations sid s :
  invocations sid (checkStorage sid s).2 = 1%nat.
Proof.
  destruct (skips (store (model_of sid s))) eqn:Hk.
  - rewrite checkStorage_skip by done. unfold invocations. simpl.
    by rewrite Nat.eqb_refl.
  - rewrite checkStorage_query by done. unfold invocations. simpl.
    by rewrite Nat.eqb_refl.
Qed.

Lemma started_invocations p sid c t :
  invocations sid (started_actions p sid c t) = 1%nat.
Proof.
  unfold started_actions, invocations. simpl. rewrite Nat.eqb_refl.
  by destruct (skips (store (model p)));
    destruct (enablePeriodicCheck_of (options p)).
Qed.

Lemma unmount_invocations sid s : invocations sid (unmount s).2 = 0%nat.
Proof.
  apply invocations_none. unfold unmount, cleanup.
  destruct (current s) as [cur|]; simpl.
  2: { intros o H. by apply elem_of_nil in H. }
  destruct (sessions s !! cur ≫= intervalId) as [t|]; simpl.
  - destruct (negb (t =? 0)%nat); simpl; intros o H; elem_cases H; done.
  - intros o H. elem_cases H. done.
Qed.

Lemma hasEnoughSpace_settled_invocations sid c r s :
  invocations sid (hasEnoughSpace_settled c r s).2 = 0%nat.
Proof.
  unfold hasEnoughSpace_settled.
  destruct (pending s !! c) as [[x []]|]; try done.
  unfold async, after_hasEnoughSpace, catch.
  by destruct r as [[]|]; destruct (signal_aborted x s).
Qed.

Lemma getFreeDiskStorage_settled_invocations sid c r s :
  invocations sid (getFreeDiskStorage_settled c r s).2 = 0%nat.
Proof.
  unfold getFreeDiskStorage_settled.
  destruct (pending s !! c) as [[x []]|]; try done.
  unfold async, after_getFreeDiskStorage, catch.
  by destruct r as [?|]; destruct (signal_aborted x s).
Qed.

(** The first render of a session counts one call. *)
Lemma render_start_invocations p s :
  Inv s → ¬ observing (deps_of p) s →
  invocations (length (sessions s)) (render p s).2 = 1%nat.
Proof.
  intros HI Hn. destruct (render_start p s HI Hn) as (-> & _).
  by rewrite invocations_app, unmount_invocations, started_invocations.
Qed.

Lemma render_start_observing p s :
  Inv s → ¬ observing (deps_of p) s → observing (deps_of p) (render p s).1.
Proof.
  intros HI Hn. destruct (render_start p s HI Hn) as (_ & Hc & Hs & _).
  unfold observing, observed. rewrite Hc. simpl. rewrite Hs. simpl.
  unfold started_session. by destruct (enablePeriodicCheck_of (options p)).
Qed.

(** Without a timer nothing calls [checkStorage] again. *)
Lemma idle_session s sid d evs :
  Inv s → observing d s → timers s = [] →
  forallb (keeps d) evs = true →
  invocations sid (run s evs).2 = 0%nat ∧ timers (run s evs).1 = [].
Proof.
  revert s. induction evs as [|e evs IH]; intros s HI Ho Htm Hk; [done|].
  simpl in Hk. apply andb_true_iff in Hk as [Hke Hk].
  destruct (step_keeps _ _ _ HI Ho Hke) as (Hc & Hs & _).
  rewrite run_cons_obs, run_cons_state, invocations_app.
  assert (H1 : invocations sid (step s e).2 = 0%nat ∧ timers (step s e).1 = []).
  { destruct e as [p| | |c r|c r]; simpl in *; try done.
    - apply bool_decide_eq_true in Hke. subst. by rewrite render_same.
    - unfold tick. rewrite Htm. done.
    - split; [apply hasEnoughSpace_settled_invocations|].
      destruct (hasEnoughSpace_settled_update c r s) as (_ & _ & -> & _). done.
    - split; [apply getFreeDiskStorage_settled_invocations|].
      destruct (getFreeDiskStorage_settled_update c r s) as (_ & _ & -> & _).
      done. }
  destruct H1 as [-> Htm']. simpl. apply IH; try done.
  - by apply Inv_step.
  - by eapply observing_frame.
Qed.

(** With a timer of period [iv] that has [t_left] milliseconds to go. *)
Lemma ticking_session s sid d t iv evs :
  Inv s → current s = Some sid → observing d s →
  timers s = [t] → t_period t = iv → 1 ≤ iv →
  forallb (keeps d) evs = true →
  Z.of_nat (invocations sid (run s evs).2) =
    (Z.of_nat (ticks evs) + (iv - t_left t)) / iv.
Proof.
  intros HI Hcur Ho Htm Hp Hiv Hk. revert s t HI Hcur Htm Hp Ho Hk.
  induction evs as [|e evs IH]; intros s t HI Hcur Htm Hp Ho Hk.
  { destruct (inv_timers _ HI t) as [Hl _]; [rewrite Htm; by left|].
    rewrite Hp in Hl. unfold period_of in Hl.
    unfold invocations, ticks. simpl. symmetry. apply Z.div_small. lia. }
  simpl in Hk. apply andb_true_iff in Hk as [Hke Hk].
  destruct (step_keeps _ _ _ HI Ho Hke) as (Hc & Hs & _).
  pose proof (Inv_step _ e HI) as HI1.
  pose proof (observing_frame _ _ _ Hc Hs Ho) as Ho1.
  rewrite Hcur in Hc.
  destruct (inv_timers _ HI t) as [Hl (ses & Hses & Hab & _)];
    [rewrite Htm; by left|].
  assert (Hsid : t_callback t = sid).
  { pose proof (inv_live _ HI _ _ Hses Hab). congruence. }
  rewrite Hp in Hl. unfold period_of in Hl.
  rewrite run_cons. simpl snd. rewrite invocations_app, Nat2Z.inj_add.
  destruct e as [p| | |c r|c r]; try done.
  - simpl in Hke. apply bool_decide_eq_true in Hke. subst d.
    simpl step in *. rewrite render_same in * by done. simpl.
    by apply IH.
  - (* one millisecond *)
    assert (Htick : tick s =
      callbacks (if due t then [sid] else []) (set_timers [elapse t] s)).
    { unfold tick. rewrite Htm. simpl.
      destruct (due t); simpl; by rewrite ?Hsid. }
    simpl step in *. rewrite Htick in *.
    assert (Htm1 : timers (callbacks (if due t then [sid] else [])
                             (set_timers [elapse t] s)).1 = [elapse t]).
    { by destruct (callbacks_sessions (if due t then [sid] else [])
                     (set_timers [elapse t] s)) as (_ & _ & -> & _). }
    rewrite (IH _ (elapse t) HI1 Hc Htm1) by done.
    unfold ticks. simpl. fold (ticks evs).
    unfold elapse, due in *. simpl.
    destruct (Z.leb_spec (t_left t - 1) 0) as [Hd|Hd].
    + simpl. pose proof (checkStorage_invocations sid (set_timers
        [{| t_id := t_id t; t_callback := t_callback t;
            t_period := t_period t;
            t_left := period_of (t_period t) |}] s)) as Hinv.
      destruct (checkStorage _ _) as [s1 o1]. simpl in *.
      rewrite app_nil_r, Hinv, Hp. unfold period_of.
      replace (Z.max 1 iv) with iv by lia.
      replace (Z.of_nat (S (ticks evs)) + (iv - t_left t))
        with (Z.of_nat (ticks evs) + 1 * iv) by lia.
      rewrite Z.div_add by lia. rewrite Z.sub_diag, Z.add_0_r. lia.
    + unfold invocations at 1. simpl (Z.of_nat (length _)).
      replace (Z.of_nat (S (ticks evs)) + (iv - t_left t))
        with (Z.of_nat (ticks evs) + (iv - (t_left t - 1))) by lia.
      done.
  - simpl step in *. unfold ticks. simpl List.filter. fold (ticks evs).
    rewrite hasEnoughSpace_settled_invocations. simpl.
    apply IH; try done.
    by destruct (hasEnoughSpace_settled_update c r s) as (_ & _ & -> & _).
  - simpl step in *. unfold ticks. simpl List.filter. fold (ticks evs).
    rewrite getFreeDiskStorage_settled_invocations. simpl.
    apply IH; try done.
    by destruct (getFreeDiskStorage_settled_update c r s) as (_ & _ & -> & _).
Qed.

(** C6: a session with [enablePeriodicCheck = false] calls [checkStorage]
    once, at its start, and sets no timer: however many milliseconds pass
    while it lasts, the count stays at one. *)
Theorem C6_single_check s p evs :
  reachable s → ¬ observing (deps_of p) s →
  enablePeriodicCheck (options p) = Some false →
  forallb (keeps (deps_of p)) evs = true →
  invocations (length (sessions s)) (run s (Render p :: evs)).2 = 1%nat ∧
  timers (run s (Render p :: evs)).1 = [].
Proof.
  intros Hr Hn Hper Hk. pose proof (reachable_Inv _ Hr) as HI.
  assert (Hper' : enablePeriodicCheck_of (options p) = false).
  { unfold enablePeriodicCheck_of. by rewrite Hper. }
  rewrite run_cons_obs, run_cons_state. simpl step.
  rewrite invocations_app, render_start_invocations by done.
  destruct (render_start p s HI Hn) as (_ & _ & _ & _ & Htm & _).
  unfold started_timer in Htm. rewrite Hper' in Htm.
  pose proof (render_start_observing p s HI Hn) as Ho.
  pose proof (Inv_render p s HI) as HI1.
  destruct (idle_session _ (length (sessions s)) _ _ HI1 Ho Htm Hk) as [-> ->].
  done.
Qed.

(** A session with a timer of period [iv]: one call at its start and one
    for every full period that has passed. *)
Lemma periodic_invocations s p evs iv :
  Inv s → ¬ observing (deps_of p) s →
  enablePeriodicCheck_of (options p) = true →
  checkInterval_of (options p) = iv → 1 ≤ iv →
  forallb (keeps (deps_of p)) evs = true →
  Z.of_nat (invocations (length (sessions s)) (run s (Render p :: evs)).2) =
    1 + Z.of_nat (ticks evs) / iv.
Proof.
  intros HI Hn Hper Hiv Hpos Hk.
  rewrite run_cons_obs. simpl step.
  rewrite invocations_app, render_start_invocations, Nat2Z.inj_add by done.
  destruct (render_start p s HI Hn) as (_ & Hc & _ & _ & Htm & _).
  unfold started_timer in Htm. rewrite Hper, Hiv in Htm.
  pose proof (render_start_observing p s HI Hn) as Ho.
  pose proof (Inv_render p s HI) as HI1.
  rewrite (ticking_session _ _ _ _ iv _ HI1 Hc Ho Htm eq_refl Hpos Hk). simpl.
  unfold period_of. replace (Z.max 1 iv) with iv by lia.
  by rewrite Z.sub_diag, Z.add_0_r.
Qed.

(** C7, as the code has it: with [enablePeriodicCheck = true] and
    [checkInterval = 10000] a session has called [checkStorage] [N + 1]
    times once [N * 10000] milliseconds have passed since its start (and
    until the next period is over): once at the start and once at each of
    the [N] timer firings. *)
Theorem C7_periodic_checks s p evs (N : nat) (k : Z) :
  reachable s → ¬ observing (deps_of p) s →
  enablePeriodicCheck_of (options p) = true →
  checkInterval_of (options p) = 10000 →
  forallb (keeps (deps_of p)) evs = true →
  Z.of_nat (ticks evs) = Z.of_nat N * 10000 + k → 0 ≤ k < 10000 →
  invocations (length (sessions s)) (run s (Render p :: evs)).2 = (N + 1)%nat.
Proof.
  intros Hr Hn Hper Hiv Hk Ht Hlt. pose proof (reachable_Inv _ Hr) as HI.
  pose proof (periodic_invocations s p evs 10000 HI Hn Hper Hiv ltac:(lia) Hk)
    as H.
  rewrite Ht, (Z.add_comm _ k), Z.div_add, Z.div_small in H by lia. lia.
Qed.

(** ** Sessions of models that need no check *)

(** An action other than those of [lifecycle] belongs to a suspended
    call, hence to a session whose model is checked. *)
Lemma settled_actor s e o :
  Inv s → o ∈ (step s e).2 → lifecycle o = false →
  ∃ ses, sessions s !! o.1 = Some ses ∧ skips (store (s_model ses)) = false.
Proof.
  intros HI H Hl. pose proof (step_lifecycle _ _ _ H) as Hs.
  destruct e as [p| | |c r|c r]; try congruence; simpl in H.
  - apply hasEnoughSpace_settled_tag in H as (cyc & Hc & _ & -> & _).
    by destruct (inv_pending _ HI _ _ Hc) as [_ ?].
  - apply getFreeDiskStorage_settled_tag in H as (cyc & Hc & _ & -> & _).
    by destruct (inv_pending _ HI _ _ Hc) as [_ ?].
Qed.

Lemma unmount_bookkeeping s o : o ∈ (unmount s).2 → bookkeeping o = true.
Proof.
  unfold unmount, cleanup. destruct (current s) as [sid|]; simpl.
  2: { intros H. by apply elem_of_nil in H. }
  destruct (sessions s !! sid ≫= intervalId) as [t|]; simpl.
  - destruct (negb (t =? 0)%nat); simpl; intros H; elem_cases H; done.
  - intros H. elem_cases H. done.
Qed.

Lemma unmount_sessions s sid ses' :
  sessions (unmount s).1 !! sid = Some ses' →
  ∃ ses, sessions s !! sid = Some ses ∧ session_deps ses' = session_deps ses.
Proof.
  unfold unmount, cleanup. destruct (current s) as [cur|]; simpl; [|eauto].
  assert (Ha : alter set_aborted cur (sessions s) !! sid = Some ses' →
    ∃ ses, sessions s !! sid = Some ses ∧ session_deps ses' = session_deps ses).
  { intros H. apply lookup_abort in H as (x & Hx & ->). exists x.
    split; [done|]. by case_decide. }
  destruct (sessions s !! cur ≫= intervalId) as [t|]; simpl; [|done].
  by destruct (negb (t =? 0)%nat).
Qed.

Lemma callbacks_skip sids s o :
  (∀ sid, sid ∈ sids → skips (store (model_of sid s)) = true) →
  o ∈ (callbacks sids s).2 → bookkeeping o = true.
Proof.
  revert s. induction sids as [|sid rest IH]; intros s Hk; simpl.
  { intros H. by apply elem_of_nil in H. }
  pose proof (checkStorage_update sid s) as (_ & Hs & _).
  rewrite checkStorage_skip in * by (apply Hk; by left). simpl in *.
  specialize (IH (set_pending (delete (next_cycle s) (pending s))
                    (set_next_cycle (S (next_cycle s)) s))).
  destruct (callbacks rest _) as [s2 o2]. simpl in *.
  intros H. apply elem_of_cons in H as [->|H]; [done|].
  apply IH; [|done]. intros x Hx. apply Hk. by right.
Qed.

Lemma skip_step s e :
  Inv s → all_skip s →
  (∀ p, e = Render p → skips (store (model p)) = true) →
  all_skip (step s e).1 ∧ ∀ o, o ∈ (step s e).2 → bookkeeping o = true.
Proof.
  intros HI Hall Hp.
  assert (Hset : ∀ o, o ∈ (step s e).2 → lifecycle o = true).
  { intros o H. destruct (lifecycle o) eqn:Hl; [done|].
    destruct (settled_actor _ _ _ HI H Hl) as (ses & Hses & Hk).
    rewrite (Hall _ _ Hses) in Hk. done. }
  destruct e as [p| | |c r|c r].
  - simpl. destruct (decide (observing (deps_of p) s)) as [Ho|Hn].
    { rewrite render_same by done. split; [done|].
      intros o H. by apply elem_of_nil in H. }
    destruct (render_start p s HI Hn) as (Hobs & _).
    rewrite Hobs. rewrite render_restart by done.
    pose proof (unmount_sessions s) as Hu.
    pose proof (unmount_bookkeeping s) as Hb.
    destruct (unmount s) as [s1 o1].
    destruct (effect_spec p s1) as (_ & _ & Hs & _).
    destruct (effect p s1) as [s2 o2]. simpl in *. split.
    + intros sid ses H. rewrite Hs in H.
      apply lookup_app_Some in H as [H|[_ H]].
      * destruct (Hu _ _ H) as (x & Hx & Hd).
        injection Hd as Hm _ _. rewrite Hm. by eapply Hall.
      * apply list_lookup_singleton_Some in H as [_ <-].
        unfold started_session.
        destruct (enablePeriodicCheck_of (options p)); simpl; by apply Hp.
    + intros o H. apply elem_of_app in H as [H|H]; [by apply Hb|].
      unfold started_actions in H. rewrite (Hp p eq_refl) in H.
      destruct (enablePeriodicCheck_of (options p)); simpl in H;
        elem_cases H; done.
  - simpl. split; [|apply unmount_bookkeeping].
    intros sid ses H. destruct (unmount_sessions _ _ _ H) as (x & Hx & Hd).
    injection Hd as Hm _ _. rewrite Hm. by eapply Hall.
  - simpl. split.
    + unfold tick. destruct (callbacks_sessions
        (t_callback <$> List.filter due (timers s))
        (set_timers (elapse <$> timers s) s)) as (Hs & _).
      intros sid ses H. rewrite Hs in H. by eapply Hall.
    + intros o. unfold tick. apply callbacks_skip.
      intros sid H.
      destruct (due_callbacks_periodic _ _ HI H) as (ses & Hses & _).
      change (model_of sid (set_timers _ s)) with (model_of sid s).
      rewrite (model_of_lookup _ _ _ Hses). by eapply Hall.
  - split.
    + simpl. destruct (hasEnoughSpace_settled_update c r s) as (_ & Hs & _).
      intros sid ses H. rewrite Hs in H. by eapply Hall.
    + intros o H. specialize (Hset o H). simpl in H.
      apply hasEnoughSpace_settled_tag in H as (cyc & Hc & _ & Ho & _).
      destruct (inv_pending _ HI _ _ Hc) as (_ & ses & Hses & Hk).
      rewrite (Hall _ _ Hses) in Hk. done.
  - split.
    + simpl. destruct (getFreeDiskStorage_settled_update c r s)
        as (_ & Hs & _).
      intros sid ses H. rewrite Hs in H. by eapply Hall.
    + intros o H. specialize (Hset o H). simpl in H.
      apply getFreeDiskStorage_settled_tag in H as (cyc & Hc & _ & Ho & _).
      destruct (inv_pending _ HI _ _ Hc) as (_ & ses & Hses & Hk).
      rewrite (Hall _ _ Hses) in Hk. done.
Qed.

Lemma skip_run s evs :
  Inv s → all_skip s →
  (∀ p, Render p ∈ evs → skips (store (model p)) = true) →
  all_skip (run s evs).1 ∧ ∀ o, o ∈ (run s evs).2 → bookkeeping o = true.
Proof.
  revert s. induction evs as [|e evs IH]; intros s HI Hall Hp.
  { split; [done|]. intros o H. by apply elem_of_nil in H. }
  destruct (skip_step s e HI Hall) as [Hall1 Hb1].
  { intros p ->. apply Hp. by left. }
  destruct (IH _ (Inv_step _ e HI) Hall1) as [Hall2 Hb2].
  { intros p H. apply Hp. by right. }
  rewrite run_cons_obs, run_cons_state. split; [done|].
  intros o H. apply elem_of_app in H as [H|H]; eauto.
Qed.

Lemma bookkeeping_quiet o : bookkeeping o = true → sets_status o = false.
Proof. destruct o as [sid []]; done. Qed.

(** C3: when every model the hook is given is downloaded, local or of
    origin [LOCAL], each call of [checkStorage] returns at once (the call
    is its only trace), [hasEnoughSpace] is never called, no call stays
    suspended, [setStorageStatus] is never called and the published status
    is the initial [{isOk: true, message: ''}]. *)
Theorem C3_local_models_skip evs :
  (∀ p, Render p ∈ evs → skips (store (model p)) = true) →
  storageStatus (run init evs).1 = {| isOk := true; message := "" |} ∧
  pending (run init evs).1 = ∅ ∧
  (∀ o c m, o ∈ (run init evs).2 → o.2 ≠ AHasEnoughSpace c m) ∧
  (∀ o c st, o ∈ (run init evs).2 → o.2 ≠ ASetStorageStatus c st) ∧
  (∀ s sid, skips (store (model_of sid s)) = true →
     (checkStorage sid s).2 = [(sid, AInvoke (next_cycle s))] ∧
     storageStatus (checkStorage sid s).1 = storageStatus s).
Proof.
  intros Hp.
  destruct (skip_run init evs Inv_init) as [Hall Hb]; [done|done|].
  pose proof (Inv_run init evs Inv_init) as HI.
  split; [|split; [|split; [|split]]].
  - rewrite run_status. apply last_status_quiet.
    intros o H. by apply bookkeeping_quiet, Hb.
  - apply map_empty. intros c.
    destruct (pending (run init evs).1 !! c) as [cyc|] eqn:Hc; [|done].
    destruct (inv_pending _ HI _ _ Hc) as (_ & ses & Hses & Hk).
    rewrite (Hall _ _ Hses) in Hk. done.
  - intros o c m H Ho. specialize (Hb o H).
    destruct o as [sid a]. simpl in Ho. by subst.
  - intros o c st H Ho. specialize (Hb o H).
    destruct o as [sid a]. simpl in Ho. by subst.
  - intros s sid Hk. by rewrite checkStorage_skip.
Qed.

(** C9: a render never writes the state cell, so the status that was
    published before a session is replaced stays published: for as long
    as the session that follows is one of a model that needs no check,
    and in any case until that session (or a later one) calls
    [setStorageStatus] itself. *)
Theorem C9_status_survives_restart s p evs :
  reachable s →
  storageStatus (step s (Render p)).1 = storageStatus s ∧
  (skips (store (model p)) = true →
   forallb (keeps (deps_of p)) evs = true →
   storageStatus (run s (Render p :: evs)).1 = storageStatus s) ∧
  (∀ sid, current (step s (Render p)).1 = Some sid →
   (∀ o, o ∈ (run (step s (Render p)).1 evs).2 → (sid ≤ o.1)%nat →
         sets_status o = false) →
   storageStatus (run s (Render p :: evs)).1 = storageStatus s).
Proof.
  intros Hr. pose proof (reachable_Inv _ Hr) as HI.
  pose proof (Inv_step s (Render p) HI) as HI1.
  destruct (render_status p s) as [Hst Hq].
  split; [done|]. split.
  - intros Hk Hkeep. rewrite run_cons_state. simpl step. rewrite <- Hst.
    assert (Ho : observing (deps_of p) (render p s).1).
    { destruct (decide (observing (deps_of p) s)) as [Ho|Hn].
      - by rewrite render_same.
      - by apply render_start_observing. }
    revert Hkeep Ho HI1. simpl step. generalize (render p s).1. clear -Hk.
    induction evs as [|e evs IH]; intros s Hkeep Ho HI; [done|].
    simpl in Hkeep. apply andb_true_iff in Hkeep as [Hke Hkeep].
    destruct (step_keeps _ _ _ HI Ho Hke) as (Hc & Hs & Ha).
    rewrite run_cons_state.
    rewrite IH; [|done|by eapply observing_frame|by apply Inv_step].
    rewrite step_status. apply last_status_quiet. intros o H.
    destruct (sets_status o) eqn:Hset; [|done].
    assert (Hl : lifecycle o = false) by (by destruct o as [? []]).
    destruct (settled_actor _ _ _ HI H Hl) as (ses & Hses & Hns).
    destruct (observing_current _ _ Ho) as (sid & ses' & Hcur & Hses' & Hd).
    rewrite (Ha o H) in Hcur. simplify_eq.
    injection Hd as Hm _ _. rewrite Hm in Hns. congruence.
  - intros sid Hcur Hquiet. rewrite run_cons_state, run_status.
    rewrite last_status_quiet; [done|]. intros o H. apply Hquiet; [done|].
    destruct (run_actor _ _ _ HI1 H) as [Hc|Hl].
    + rewrite Hcur in Hc. simplify_eq. done.
    + destruct (inv_current _ HI1 _ Hcur) as (ses & Hses & _).
      apply lookup_lt_Some in Hses. lia.
Qed.

(** ** Replacing a session *)

Lemma changed_not_observing s p old oldses :
  current s = Some old → sessions s !! old = Some oldses →
  deps_of p ≠ session_deps oldses → ¬ observing (deps_of p) s.
Proof.
  intros Hcur Hses Hd Ho.
  destruct (observing_current _ _ Ho) as (sid & ses & ? & ? & ?).
  by simplify_eq.
Qed.

Lemma restart_actions s p old oldses :
  Inv s → current s = Some old → sessions s !! old = Some oldses →
  deps_of p ≠ session_deps oldses →
  (step s (Render p)).2 =
    cleanup_actions old oldses ++
    started_actions p (length (sessions s)) (next_cycle s) (next_timer s).
Proof.
  intros HI Hcur Hses Hd.
  pose proof (changed_not_observing _ _ _ _ Hcur Hses Hd) as Hn.
  destruct (render_start p s HI Hn) as (Hobs & _). simpl step.
  by rewrite Hobs, (unmount_spec _ _ _ HI Hcur Hses).
Qed.

(** C2, as the code has it: a session without periodic checks has at
    most one call suspended at a time; and when an input changes, the
    session that was current is cancelled and its timer cleared before
    the new session makes its first call of [checkStorage], so that every
    call still suspended then, other than the new session's own, belongs
    to a cancelled session. *)
Theorem C2_one_check_without_timer s p old oldses :
  reachable s →
  current s = Some old → sessions s !! old = Some oldses →
  deps_of p ≠ session_deps oldses →
  (∀ sid ses c1 c2 cyc1 cyc2,
     sessions s !! sid = Some ses → s_periodic ses = false →
     pending s !! c1 = Some cyc1 → pending s !! c2 = Some cyc2 →
     c_session cyc1 = sid → c_session cyc2 = sid → c1 = c2) ∧
  (step s (Render p)).2 =
    cleanup_actions old oldses ++
    started_actions p (length (sessions s)) (next_cycle s) (next_timer s) ∧
  (∀ c cyc,
     pending (step s (Render p)).1 !! c = Some cyc →
     c_session cyc ≠ length (sessions s) →
     ∃ ses, sessions (step s (Render p)).1 !! c_session cyc = Some ses ∧
            aborted ses = true).
Proof.
  intros Hr Hcur Hses Hd. pose proof (reachable_Inv _ Hr) as HI.
  pose proof (changed_not_observing _ _ _ _ Hcur Hses Hd) as Hn.
  split; [|split].
  - intros sid ses c1 c2 cyc1 cyc2 Hs Hp H1 H2 E1 E2.
    apply (inv_single _ HI c1 c2 cyc1 cyc2 ses); congruence.
  - by apply restart_actions.
  - intros c cyc Hc Hne. pose proof (Inv_step s (Render p) HI) as HI1.
    destruct (inv_pending _ HI1 _ _ Hc) as (_ & ses & Hs & _).
    exists ses. split; [done|]. destruct (aborted ses) eqn:Hab; [done|].
    pose proof (inv_live _ HI1 _ _ Hs Hab) as Hc1.
    destruct (render_start p s HI Hn) as (_ & Hc2 & _).
    simpl step in Hc1. congruence.
Qed.

(** C8, as the code has it: when the model or an option changes, the
    render cancels the current session and clears its timer, then starts
    a new session with the new parameters, its immediate check first;
    from then on the old session takes no action, so every later status
    update comes from the new session or from one started after it.  (The
    status published before the change is not touched by the render.) *)
Theorem C8_change_restarts_session s p old oldses evs :
  reachable s →
  current s = Some old → sessions s !! old = Some oldses →
  deps_of p ≠ session_deps oldses →
  (step s (Render p)).2 =
    cleanup_actions old oldses ++
    started_actions p (length (sessions s)) (next_cycle s) (next_timer s) ∧
  (∃ ses, sessions (step s (Render p)).1 !! old = Some ses ∧
          aborted ses = true) ∧
  timers (step s (Render p)).1 =
    started_timer p (length (sessions s)) (next_timer s) ∧
  current (step s (Render p)).1 = Some (length (sessions s)) ∧
  sessions (step s (Render p)).1 !! length (sessions s) =
    Some (started_session p (next_timer s)) ∧
  storageStatus (step s (Render p)).1 = storageStatus s ∧
  (∀ o, o ∈ (run (step s (Render p)).1 evs).2 →
        (length (sessions s) ≤ o.1)%nat).
Proof.
  intros Hr Hcur Hses Hd. pose proof (reachable_Inv _ Hr) as HI.
  pose proof (changed_not_observing _ _ _ _ Hcur Hses Hd) as Hn.
  pose proof (Inv_step s (Render p) HI) as HI1.
  destruct (render_start p s HI Hn) as (_ & Hc & Hs & Hlen & Htm & Hab).
  simpl step in *.
  split; [by apply restart_actions|].
  split; [|split; [done|split; [done|split; [done|split]]]].
  - pose proof (lookup_lt_Some _ _ _ Hses) as Hlt.
    destruct (lookup_lt_is_Some_2 (sessions (render p s).1) old) as [x Hx];
      [lia|].
    exists x. split; [done|]. by eapply Hab.
  - apply render_status.
  - intros o H. destruct (run_actor _ _ _ HI1 H) as [Hc'|Hl].
    + rewrite Hc in Hc'. simplify_eq. lia.
    + lia.
Qed.


(** ** Further facts about the hook *)

(** Every action of a run is the action of one of its steps. *)
Lemma run_obs_step s evs o :
  Inv s → o ∈ (run s evs).2 → ∃ s' e, Inv s' ∧ o ∈ (step s' e).2.
Proof.
  revert s. induction evs as [|e evs IH]; intros s HI H.
  { by apply elem_of_nil in H. }
  rewrite run_cons_obs in H. apply elem_of_app in H as [H|H]; [eauto|].
  eapply IH; [|done]. by apply Inv_step.
Qed.

(** The statuses that the hook sets: lines 67-70, line 75 and lines
    60-65, the last for a model that is checked. *)
Definition hook_status (st : StorageStatus) : Prop :=
  st = {| isOk := true; message := "" |} ∨
  st = {| isOk := false; message := "Failed to check storage" |} ∨
  ∃ m freeDisk, skips (store m) = false ∧
    st = {| isOk := false;
            message := "Storage low! Model " +:+ formatBytes (size (store m))
                       +:+ " > " +:+ formatBytes freeDisk +:+ " free" |}.

Lemma step_sets_hook_status s e o c st :
  Inv s → o ∈ (step s e).2 → o.2 = ASetStorageStatus c st → hook_status st.
Proof.
  intros HI H Ho. pose proof (step_lifecycle _ _ _ H) as Hl.
  destruct e as [p| | |c' r|c' r];
    try (destruct o as [? []]; by simplify_eq/=); simpl in H.
  - unfold hasEnoughSpace_settled in H.
    destruct (pending s !! c') as [[sid []]|]; try by elem_cases H.
    unfold async, after_hasEnoughSpace, catch in H.
    destruct r as [[]|]; destruct (signal_aborted sid s); simpl in H;
      elem_cases H; simplify_eq/=; unfold hook_status; eauto.
  - unfold getFreeDiskStorage_settled in H.
    destruct (pending s !! c') as [[sid []]|] eqn:Hc; try by elem_cases H.
    destruct (inv_pending _ HI _ _ Hc) as (_ & ses & Hses & Hk). simpl in *.
    unfold async, after_getFreeDiskStorage, catch in H.
    destruct r as [?|]; destruct (signal_aborted sid s); simpl in H;
      elem_cases H; simplify_eq/=; unfold hook_status; eauto.
    right. right. exists (s_model ses), a.
    by rewrite (model_of_lookup _ _ _ Hses).
Qed.

Lemma last_status_keeps (P : StorageStatus → Prop) st obs :
  P st →
  (∀ o c st', o ∈ obs → o.2 = ASetStorageStatus c st' → P st') →
  P (last_status st obs).
Proof.
  revert st. induction obs as [|[sid a] obs IH]; intros st Hst H; [done|].
  assert (Hrest : ∀ o c st', o ∈ obs → o.2 = ASetStorageStatus c st' → P st').
  { intros o c st' Ho. apply H. by right. }
  destruct a; simpl; try by apply IH.
  apply IH; [|done]. eapply (H (sid, _)); [by left|done].
Qed.

(** The published status is always one of the three the code writes
    down, and [isOk] holds exactly when the message is empty. *)
Theorem published_status_forms s :
  reachable s →
  hook_status (storageStatus s) ∧
  (isOk (storageStatus s) = true ↔ message (storageStatus s) = "").
Proof.
  intros [evs ->].
  assert (H : hook_status (storageStatus (run init evs).1)).
  { rewrite run_status. apply last_status_keeps; [by left|].
    intros o c st Ho Hst.
    destruct (run_obs_step _ _ _ Inv_init Ho) as (s' & e & HI & Hs).
    by eapply step_sets_hook_status. }
  split; [done|].
  destruct H as [->|[->|(m & f & _ & ->)]]; simpl; split; done.
Qed.

(** At any time at most one session is live (not cancelled), namely the
    current one, and at most one timer, which is that session's: it was
    set because periodic checks are on and runs with the session's
    interval.  Once the hook is torn down no timer is left. *)
Theorem one_live_session_one_timer s :
  reachable s →
  (length (timers s) ≤ 1)%nat ∧
  (∀ t, t ∈ timers s →
     current s = Some (t_callback t) ∧
     ∃ ses, sessions s !! t_callback t = Some ses ∧ aborted ses = false ∧
            s_periodic ses = true ∧ intervalId ses = Some (t_id t) ∧
            t_period t = s_interval ses ∧
            1 ≤ t_left t ≤ period_of (s_interval ses)) ∧
  (∀ sid ses, sessions s !! sid = Some ses → aborted ses = false →
     current s = Some sid) ∧
  (current s = None → timers s = []) ∧
  timers (step s Unmount).1 = [].
Proof.
  intros Hr. pose proof (reachable_Inv _ Hr) as HI.
  split; [apply HI|]. split; [|split; [apply HI|split]].
  - intros t Ht.
    destruct (inv_timers _ HI t Ht) as (Hl & ses & Hses & Hab & Hid & Hiv).
    destruct (inv_intervalId _ HI _ _ _ Hses Hid) as [Hper _].
    split; [by apply (inv_live _ HI _ ses)|].
    exists ses. rewrite Hiv. done.
  - by apply Inv_no_timers.
  - simpl. by destruct (unmount_frame s HI) as (_ & _ & _ & _ & ? & _).
Qed.

(** Line 27 and line 92: the dependencies are the destructured values,
    defaults filled in.  A render with the same model and options that
    come to the same two values leaves the session alone, whether or not
    the caller wrote the defaults out. *)
Theorem render_with_equal_options s m o o' :
  observing (deps_of {| model := m; options := o |}) s →
  enablePeriodicCheck_of o' = enablePeriodicCheck_of o →
  checkInterval_of o' = checkInterval_of o →
  step s (Render {| model := m; options := o' |}) = (s, []).
Proof.
  intros Ho He Hi. simpl. apply render_same.
  unfold deps_of in *. simpl in *. by rewrite He, Hi.
Qed.

(** Where the sessions of a state come from. *)
Lemma step_sessions_origin s e sid ses' :
  Inv s → sessions (step s e).1 !! sid = Some ses' →
  (∃ ses, sessions s !! sid = Some ses ∧ session_deps ses' = session_deps ses)
  ∨ (∃ p, e = Render p ∧ session_deps ses' = deps_of p).
Proof.
  intros HI H. destruct e as [p| | |c r|c r]; simpl in H.
  - destruct (decide (observing (deps_of p) s)) as [Ho|Hn].
    { rewrite render_same in H by done. left. eauto. }
    rewrite render_restart in H by done.
    pose proof (unmount_sessions s) as Hu.
    destruct (unmount s) as [s1 o1].
    destruct (effect_spec p s1) as (_ & _ & Hs & _).
    destruct (effect p s1) as [s2 o2]. simpl in *. rewrite Hs in H.
    apply lookup_app_Some in H as [H|[_ H]]; [left; by apply Hu|].
    right. exists p. split; [done|].
    apply list_lookup_singleton_Some in H as [_ <-].
    unfold started_session. by destruct (enablePeriodicCheck_of (options p)).
  - left. by apply unmount_sessions.
  - left. unfold tick in H. destruct (callbacks_sessions
      (t_callback <$> List.filter due (timers s))
      (set_timers (elapse <$> timers s) s)) as (Hs & _).
    rewrite Hs in H. eauto.
  - left. destruct (hasEnoughSpace_settled_update c r s) as (_ & Hs & _).
    rewrite Hs in H. eauto.
  - left. destruct (getFreeDiskStorage_settled_update c r s) as (_ & Hs & _).
    rewrite Hs in H. eauto.
Qed.

Lemma callbacks_queries sids s o c m :
  o ∈ (callbacks sids s).2 → o.2 = AHasEnoughSpace c m →
  skips (store m) = false ∧ m = model_of o.1 s ∧ o.1 ∈ sids.
Proof.
  revert s. induction sids as [|sid rest IH]; intros s H Ho; simpl in H.
  { by apply elem_of_nil in H. }
  pose proof (checkStorage_update sid s) as (_ & Hs & _).
  destruct (skips (store (model_of sid s))) eqn:Hk.
  - rewrite checkStorage_skip in * by done. simpl in *.
    specialize (IH (set_pending (delete (next_cycle s) (pending s))
                      (set_next_cycle (S (next_cycle s)) s))).
    destruct (callbacks rest _) as [s2 o2]. simpl in *.
    apply elem_of_cons in H as [->|H]; [done|].
    destruct (IH H Ho) as (? & ? & ?). repeat split; try done. by right.
  - rewrite checkStorage_query in * by done. simpl in *.
    specialize (IH (set_pending (<[next_cycle s :=
                       {| c_session := sid; c_at := AwaitHasEnoughSpace |}]>
                      (pending s))
                      (set_next_cycle (S (next_cycle s)) s))).
    destruct (callbacks rest _) as [s2 o2]. simpl in *.
    apply elem_of_cons in H as [->|H]; [done|].
    apply elem_of_cons in H as [->|H].
    + simpl in Ho. injection Ho as _ <-. repeat split; try done. by left.
    + destruct (IH H Ho) as (? & ? & ?). repeat split; try done. by right.
Qed.

Lemma step_queries s e o c m :
  Inv s → o ∈ (step s e).2 → o.2 = AHasEnoughSpace c m →
  skips (store m) = false ∧
  ((∃ sid ses, sessions s !! sid = Some ses ∧ s_model ses = m) ∨
   (∃ p, e = Render p ∧ model p = m)).
Proof.
  intros HI H Ho. destruct e as [p| | |c' r|c' r]; simpl in H.
  - destruct (decide (observing (deps_of p) s)) as [Hob|Hn].
    { rewrite render_same in H by done. by apply elem_of_nil in H. }
    destruct (render_start p s HI Hn) as (Hobs & _). rewrite Hobs in H.
    apply elem_of_app in H as [H|H].
    { apply unmount_bookkeeping in H. destruct o as [? []]; by simplify_eq/=. }
    unfold started_actions in H.
    destruct (skips (store (model p))) eqn:Hk;
      destruct (enablePeriodicCheck_of (options p)); simpl in H;
      elem_cases H; simplify_eq/=; eauto.
  - apply unmount_bookkeeping in H. destruct o as [? []]; by simplify_eq/=.
  - unfold tick in H. destruct (callbacks_queries _ _ _ _ _ H Ho)
      as (Hk & Hm & Hin).
    split; [done|]. left.
    destruct (due_callbacks_periodic _ _ HI Hin) as (ses & Hses & _).
    exists o.1, ses. split; [done|].
    change (model_of o.1 (set_timers _ s)) with (model_of o.1 s) in Hm.
    by rewrite (model_of_lookup _ _ _ Hses) in Hm.
  - exfalso. unfold hasEnoughSpace_settled in H.
    destruct (pending s !! c') as [[sid []]|]; try by elem_cases H.
    unfold async, after_hasEnoughSpace, catch in H.
    destruct r as [[]|]; destruct (signal_aborted sid s); simpl in H;
      elem_cases H; by simplify_eq/=.
  - exfalso. unfold getFreeDiskStorage_settled in H.
    destruct (pending s !! c') as [[sid []]|]; try by elem_cases H.
    unfold async, after_getFreeDiskStorage, catch in H.
    destruct r as [?|]; destruct (signal_aborted sid s); simpl in H;
      elem_cases H; by simplify_eq/=.
Qed.

Lemma run_queries s evs o c m :
  Inv s → o ∈ (run s evs).2 → o.2 = AHasEnoughSpace c m →
  skips (store m) = false ∧
  ((∃ sid ses, sessions s !! sid = Some ses ∧ s_model ses = m) ∨
   (∃ p, Render p ∈ evs ∧ model p = m)).
Proof.
  revert s. induction evs as [|e evs IH]; intros s HI H Ho.
  { by apply elem_of_nil in H. }
  rewrite run_cons_obs in H. apply elem_of_app in H as [H|H].
  - destruct (step_queries _ _ _ _ _ HI H Ho) as [Hk [Hs|(p & -> & Hm)]].
    + split; [done|]. by left.
    + split; [done|]. right. exists p. split; [by left|done].
  - destruct (IH _ (Inv_step _ e HI) H Ho)
      as [Hk [(sid & ses & Hs & Hm)|(p & Hp & Hm)]].
    + split; [done|].
      destruct (step_sessions_origin _ _ _ _ HI Hs)
        as [(ses0 & Hs0 & Hd)|(p & -> & Hd)].
      * left. exists sid, ses0. split; [done|].
        injection Hd as Hd _ _. congruence.
      * right. exists p. split; [by left|].
        injection Hd as Hd _ _. congruence.
    + split; [done|]. right. exists p. split; [by right|done].
Qed.

(** [hasEnoughSpace] is only ever called with a model that the hook was
    given in some render, and never with one that is downloaded, local
    or of origin [LOCAL]. *)
Theorem hasEnoughSpace_only_for_given_models evs o c m :
  o ∈ (run init evs).2 → o.2 = AHasEnoughSpace c m →
  skips (store m) = false ∧ ∃ p, Render p ∈ evs ∧ model p = m.
Proof.
  intros H Ho.
  destruct (run_queries _ _ _ _ _ Inv_init H Ho)
    as [Hk [(sid & ses & Hs & _)|Hp]]; [done|done].
Qed.


(** *** What one check cycle does

    The calls a trace holds for cycle [c]: of [hasEnoughSpace], of
    [getFreeDiskStorage] and of [setStorageStatus]. *)
Definition is_query (c : nat) (o : Obs) : bool :=
  match o.2 with
  | AHasEnoughSpace c' _ => Nat.eqb c' c
  | _ => false
  end.

Definition is_free_query (c : nat) (o : Obs) : bool :=
  match o.2 with
  | AGetFreeDiskStorage c' _ => Nat.eqb c' c
  | _ => false
  end.

Definition is_update (c : nat) (o : Obs) : bool :=
  match o.2 with
  | ASetStorageStatus c' _ => Nat.eqb c' c
  | _ => false
  end.

Definition count (f : Obs → bool) (obs : list Obs) : nat :=
  length (List.filter f obs).

(** How far a cycle has come, against where its call is suspended. *)
Definition phase_ok (ph : option Cycle) (q f u : nat) : Prop :=
  match ph with
  | Some cyc =>
      match c_at cyc with
      | AwaitHasEnoughSpace => q = 1%nat ∧ f = 0%nat ∧ u = 0%nat
      | AwaitFreeDiskStorage => q = 1%nat ∧ f = 1%nat ∧ u = 0%nat
      end
  | None => (q ≤ 1)%nat ∧ (f ≤ q)%nat ∧ (u ≤ q)%nat
  end.

Definition cycles_ok (pn : gmap nat Cycle) (n : nat) (T : list Obs) : Prop :=
  ∀ c,
    phase_ok (pn !! c) (count (is_query c) T) (count (is_free_query c) T)
             (count (is_update c) T) ∧
    ((n ≤ c)%nat → pn !! c = None ∧ count (is_query c) T = 0%nat).

Lemma count_app f T obs : count f (T ++ obs) = (count f T + count f obs)%nat.
Proof. unfold count. by rewrite List.filter_app, length_app. Qed.

Lemma count_cons f o obs :
  count f (o :: obs) = ((if f o then 1 else 0) + count f obs)%nat.
Proof. unfold count. simpl. by destruct (f o). Qed.

Lemma count_none f obs :
  (∀ o, o ∈ obs → f o = false) → count f obs = 0%nat.
Proof.
  unfold count. induction obs as [|o obs IH]; intros H; [done|].
  simpl. rewrite H by by left. apply IH. intros x Hx. apply H. by right.
Qed.

Lemma cycles_ok_neutral pn n T obs :
  cycles_ok pn n T → (∀ o, o ∈ obs → bookkeeping o = true) →
  cycles_ok pn n (T ++ obs).
Proof.
  intros HJ Hb c. rewrite !count_app.
  rewrite !(count_none _ obs); [by rewrite !Nat.add_0_r| | |];
    intros o Ho; specialize (Hb o Ho); by destruct o as [? []].
Qed.

Lemma cycles_ok_skip pn n T sid :
  cycles_ok pn n T →
  cycles_ok (delete n pn) (S n) (T ++ [(sid, AInvoke n)]).
Proof.
  intros HJ. apply (cycles_ok_neutral _ _ _ [(sid, AInvoke n)]).
  2: { intros o Ho. by elem_cases Ho. }
  intros c. destruct (HJ c) as [Hph Hn].
  destruct (decide (c = n)) as [->|Hne].
  - destruct (Hn ltac:(lia)) as [Hp Hq]. rewrite lookup_delete_eq.
    rewrite Hp in Hph. split; [done|]. done.
  - rewrite lookup_delete_ne by done. split; [done|].
    intros Hle. apply Hn. lia.
Qed.

Lemma cycles_ok_query pn n T sid m :
  cycles_ok pn n T →
  cycles_ok (<[n := {| c_session := sid; c_at := AwaitHasEnoughSpace |}]> pn)
            (S n)
            (T ++ [(sid, AInvoke n); (sid, AHasEnoughSpace n m)]).
Proof.
  intros HJ c. destruct (HJ c) as [Hph Hn].
  rewrite !count_app, !count_cons. cbn.
  destruct (decide (c = n)) as [->|Hne].
  - destruct (Hn ltac:(lia)) as [Hp Hq].
    rewrite lookup_insert_eq, Nat.eqb_refl. rewrite Hp in Hph. simpl in *.
    split; [lia|]. intros ?. lia.
  - rewrite lookup_insert_ne by done.
    destruct (Nat.eqb_spec n c) as [?|_]; [congruence|]. simpl.
    rewrite !Nat.add_0_r. split; [done|]. intros Hle. apply Hn. lia.
Qed.

(** A call that ends, with or without a status update. *)
Lemma cycles_ok_end pn n T c cyc obs :
  cycles_ok pn n T → pn !! c = Some cyc →
  (∀ c', count (is_query c') obs = 0%nat ∧
         count (is_free_query c') obs = 0%nat ∧
         (count (is_update c') obs ≤ if decide (c' = c) then 1 else 0)%nat) →
  cycles_ok (delete c pn) n (T ++ obs).
Proof.
  intros HJ Hc Hobs c'. destruct (HJ c') as [Hph Hn].
  destruct (Hobs c') as (Hq & Hf & Hu). rewrite !count_app, Hq, Hf.
  destruct (decide (c' = c)) as [->|Hne].
  - rewrite lookup_delete_eq. rewrite Hc in Hph. simpl in *. split.
    + destruct (c_at cyc); lia.
    + intros Hle. destruct (Hn Hle) as [Hp _]. congruence.
  - rewrite lookup_delete_ne by done.
    assert (count (is_update c') obs = 0%nat) as -> by lia.
    rewrite !Nat.add_0_r. done.
Qed.

Lemma cycles_ok_move pn n T c sid k :
  cycles_ok pn n T →
  pn !! c = Some {| c_session := sid; c_at := AwaitHasEnoughSpace |} →
  cycles_ok (<[c := {| c_session := sid; c_at := AwaitFreeDiskStorage |}]> pn)
            n (T ++ [(sid, AGetFreeDiskStorage c k)]).
Proof.
  intros HJ Hc c'. destruct (HJ c') as [Hph Hn].
  rewrite !count_app, !count_cons. cbn.
  destruct (decide (c' = c)) as [->|Hne].
  - rewrite lookup_insert_eq, Nat.eqb_refl. rewrite Hc in Hph. simpl in *.
    split; [lia|]. intros Hle. destruct (Hn Hle) as [Hp _]. congruence.
  - rewrite lookup_insert_ne by done.
    destruct (Nat.eqb_spec c c') as [?|_]; [congruence|]. simpl.
    rewrite !Nat.add_0_r. done.
Qed.

Lemma cycles_ok_checkStorage sid s T :
  cycles_ok (pending s) (next_cycle s) T →
  cycles_ok (pending (checkStorage sid s).1) (next_cycle (checkStorage sid s).1)
            (T ++ (checkStorage sid s).2).
Proof.
  intros HJ. destruct (skips (store (model_of sid s))) eqn:Hk.
  - rewrite checkStorage_skip by done. by apply cycles_ok_skip.
  - rewrite checkStorage_query by done. by apply cycles_ok_query.
Qed.

Lemma cycles_ok_callbacks sids s T :
  cycles_ok (pending s) (next_cycle s) T →
  cycles_ok (pending (callbacks sids s).1) (next_cycle (callbacks sids s).1)
            (T ++ (callbacks sids s).2).
Proof.
  revert s T. induction sids as [|sid rest IH]; intros s T HJ; simpl.
  { by rewrite app_nil_r. }
  pose proof (cycles_ok_checkStorage sid s T HJ) as H1.
  destruct (checkStorage sid s) as [s1 o1]. simpl in H1.
  specialize (IH s1 (T ++ o1) H1).
  destruct (callbacks rest s1) as [s2 o2]. simpl in *.
  by rewrite app_assoc.
Qed.

Lemma unmount_pending s :
  pending (unmount s).1 = pending s ∧
  next_cycle (unmount s).1 = next_cycle s.
Proof.
  unfold unmount, cleanup. destruct (current s) as [sid|]; simpl; [|done].
  destruct (sessions s !! sid ≫= intervalId) as [t|]; simpl; [|done].
  by destruct (negb (t =? 0)%nat).
Qed.

Lemma cycles_ok_effect p s T :
  cycles_ok (pending s) (next_cycle s) T →
  cycles_ok (pending (effect p s).1) (next_cycle (effect p s).1)
            (T ++ (effect p s).2).
Proof.
  intros HJ. rewrite effect_add_session.
  pose proof (cycles_ok_checkStorage (length (sessions s)) (add_session p s) T
                HJ) as H1.
  destruct (checkStorage _ _) as [s1 o1]. simpl in H1.
  destruct (enablePeriodicCheck_of (options p)); [|done].
  unfold setInterval. simpl. rewrite app_assoc.
  apply cycles_ok_neutral; [done|]. intros o Ho. by elem_cases Ho.
Qed.

Lemma cycles_ok_step s e T :
  cycles_ok (pending s) (next_cycle s) T →
  cycles_ok (pending (step s e).1) (next_cycle (step s e).1)
            (T ++ (step s e).2).
Proof.
  intros HJ. destruct e as [p| | |c r|c r]; simpl.
  - destruct (decide (observing (deps_of p) s)) as [Ho|Hn].
    { rewrite render_same by done. by rewrite app_nil_r. }
    rewrite render_restart by done.
    destruct (unmount_pending s) as [Hp Hc].
    pose proof (unmount_bookkeeping s) as Hb.
    destruct (unmount s) as [s1 o1]. simpl in *.
    assert (H1 : cycles_ok (pending s1) (next_cycle s1) (T ++ o1)).
    { rewrite Hp, Hc. by apply cycles_ok_neutral. }
    pose proof (cycles_ok_effect p s1 _ H1) as H2.
    destruct (effect p s1) as [s2 o2]. simpl in *. by rewrite app_assoc.
  - destruct (unmount_pending s) as [-> ->].
    apply cycles_ok_neutral; [done|apply unmount_bookkeeping].
  - unfold tick. by apply cycles_ok_callbacks.
  - unfold hasEnoughSpace_settled.
    destruct (pending s !! c) as [[sid []]|] eqn:Hc;
      try by rewrite app_nil_r.
    unfold async, after_hasEnoughSpace, catch.
    destruct r as [[]|]; destruct (signal_aborted sid s); simpl;
      try (by apply cycles_ok_move);
      (eapply cycles_ok_end; [done|done|]); intros c';
      rewrite ?count_cons; cbn;
      case_decide; subst; rewrite ?Nat.eqb_refl; simpl; try lia;
      destruct (Nat.eqb_spec c c'); simpl; try lia; congruence.
  - unfold getFreeDiskStorage_settled.
    destruct (pending s !! c) as [[sid []]|] eqn:Hc;
      try by rewrite app_nil_r.
    unfold async, after_getFreeDiskStorage, catch.
    destruct r as [?|]; destruct (signal_aborted sid s); simpl;
      (eapply cycles_ok_end; [done|done|]); intros c';
      rewrite ?count_cons; cbn;
      case_decide; subst; rewrite ?Nat.eqb_refl; simpl; try lia;
      destruct (Nat.eqb_spec c c'); simpl; try lia; congruence.
Qed.

Lemma cycles_ok_run s evs T :
  cycles_ok (pending s) (next_cycle s) T →
  cycles_ok (pending (run s evs).1) (next_cycle (run s evs).1)
            (T ++ (run s evs).2).
Proof.
  revert s T. induction evs as [|e evs IH]; intros s T HJ.
  { simpl. by rewrite app_nil_r. }
  rewrite run_cons_obs, run_cons_state, app_assoc.
  by apply IH, cycles_ok_step.
Qed.

(** In any run, a check cycle calls [hasEnoughSpace] at most once,
    [getFreeDiskStorage] at most once and [setStorageStatus] at most
    once, the latter two only if it has called [hasEnoughSpace]; while
    its call is suspended at an await it has not set the status yet. *)
Theorem one_update_per_cycle evs c :
  let T := (run init evs).2 in
  (count (is_query c) T ≤ 1)%nat ∧
  (count (is_free_query c) T ≤ count (is_query c) T)%nat ∧
  (count (is_update c) T ≤ count (is_query c) T)%nat ∧
  (is_Some (pending (run init evs).1 !! c) →
   count (is_query c) T = 1%nat ∧ count (is_update c) T = 0%nat).
Proof.
  intros T.
  assert (HJ : cycles_ok (pending (run init evs).1)
                 (next_cycle (run init evs).1) T).
  { apply (cycles_ok_run init evs []). intros c'. simpl. split; [|done].
    rewrite lookup_empty. simpl. unfold count. simpl. lia. }
  destruct (HJ c) as [Hph _]. unfold phase_ok in Hph.
  destruct (pending (run init evs).1 !! c) as [cyc|].
  - destruct (c_at cyc); destruct Hph as (-> & -> & ->);
      (split; [lia|split; [lia|split; [lia|done]]]).
  - destruct Hph as (? & ? & ?).
    split; [lia|split; [lia|split; [lia|]]]. by intros [? ?].
Qed.

End Hook.

(** ** Concrete runs *)

(** Two remote models that are not on the device, one that is
    downloaded, and models of origin [LOCAL]. *)
Definition demo_store (m : nat) : Model :=
  match m with
  | 0%nat => {| size := 5000000000; isDownloaded := false; isLocal := false;
                origin := REMOTE |}
  | 1%nat => {| size := 1000000000; isDownloaded := false; isLocal := false;
                origin := REMOTE |}
  | 2%nat => {| size := 1000000000; isDownloaded := true; isLocal := false;
                origin := REMOTE |}
  | _ => {| size := 0; isDownloaded := false; isLocal := false;
            origin := LOCAL |}
  end.

(** A stand-in for [formatBytes]: the number of bytes, written out. *)
Definition demo_format (n : Z) : string := pretty n +:+ " B".

(** The hook called with a model and no options, with
    [{enablePeriodicCheck: false}], and with [{checkInterval: ms}]. *)
Definition demo_props (m : nat) : Props :=
  {| model := m;
     options := {| enablePeriodicCheck := None; checkInterval := None |} |}.

Definition demo_once (m : nat) : Props :=
  {| model := m;
     options := {| enablePeriodicCheck := Some false;
                   checkInterval := None |} |}.

Definition demo_every (m : nat) (ms : Z) : Props :=
  {| model := m;
     options := {| enablePeriodicCheck := None; checkInterval := Some ms |} |}.

Definition demo_run (evs : list Event) : State * list Obs :=
  run demo_store demo_format init evs.

Lemma demo_reachable evs : reachable demo_store demo_format (demo_run evs).1.
Proof. by exists evs. Qed.

(** Model 0 is observed and its first check is in flight. *)
Definition demo_checking : State := (demo_run [Render (demo_props 0)]).1.

(** The same, after the hook is torn down. *)
Definition demo_torn_down : State :=
  (demo_run [Render (demo_props 0); Unmount]).1.

(** Model 0 has been found too large for the 4 GB that are free, and the
    next check (cycle 1, started by the timer) is in flight. *)
Definition demo_low : State :=
  (demo_run [Render (demo_every 0 1);
             HasEnoughSpaceSettled 0 (Fulfilled false);
             FreeDiskStorageSettled 0 (Fulfilled 4000000000);
             Tick]).1.

Definition demo_low_status : StorageStatus :=
  {| isOk := false;
     message := "Storage low! Model 5000000000 B > 4000000000 B free" |}.

Definition demo_session (m : nat) (ms : Z) (a : bool) (t : nat) : Session :=
  {| s_model := m; s_periodic := true; s_interval := ms; aborted := a;
     intervalId := Some t |}.

Definition demo_cycle (sid : nat) (w : Await) : Cycle :=
  {| c_session := sid; c_at := w |}.

(** C1, on a run: the hook is torn down while the first check of model 0
    is in flight; the answer, when it comes, changes nothing. *)
Lemma C1_witness :
  reachable demo_store demo_format demo_torn_down ∧
  pending demo_torn_down !! 0%nat = Some (demo_cycle 0 AwaitHasEnoughSpace) ∧
  sessions demo_torn_down !! 0%nat = Some (demo_session 0 10000 true 1) ∧
  (step demo_store demo_format demo_torn_down
     (HasEnoughSpaceSettled 0 (Fulfilled false))).2 = [] ∧
  storageStatus (step demo_store demo_format demo_torn_down
     (HasEnoughSpaceSettled 0 (Fulfilled false))).1 = initialStatus ∧
  (run demo_store demo_format demo_torn_down
     [Tick; HasEnoughSpaceSettled 0 (Fulfilled false); Tick]).2 = [].
Proof.
  assert (H1 : reachable demo_store demo_format demo_torn_down)
    by apply demo_reachable.
  assert (H2 : pending demo_torn_down !! 0%nat =
               Some (demo_cycle 0 AwaitHasEnoughSpace)) by by vm_compute.
  assert (H3 : sessions demo_torn_down !! c_session
                 (demo_cycle 0 AwaitHasEnoughSpace) =
               Some (demo_session 0 10000 true 1)) by by vm_compute.
  destruct (C1_cancelled_cycle_is_discarded demo_store demo_format
              demo_torn_down 0 (demo_cycle 0 AwaitHasEnoughSpace)
              (demo_session 0 10000 true 1)
              (HasEnoughSpaceSettled 0 (Fulfilled false))
              [Tick; HasEnoughSpaceSettled 0 (Fulfilled false); Tick]
              H1 H2 H3 eq_refl eq_refl) as (Hs & Hst & _ & _ & Hdown).
  split; [exact H1|]. split; [exact H2|]. split; [exact H3|].
  split; [by rewrite Hs|]. split; [by rewrite Hst|].
  apply Hdown; [done|]. intros p Hp.
  repeat (apply elem_of_cons in Hp as [Hp|Hp]; [done|]).
  by apply elem_of_nil in Hp.
Defined.

(** C2 fails as stated: with the default options the timer fires after
    10 s whether or not [hasEnoughSpace] has answered, and the one
    session then has two checks in flight. *)
Lemma C2_two_checks_in_flight :
  let s := (demo_run (Render (demo_props 0) :: repeat Tick (Z.to_nat 10000))).1
  in
  current s = Some 0%nat ∧
  pending s !! 0%nat = Some (demo_cycle 0 AwaitHasEnoughSpace) ∧
  pending s !! 1%nat = Some (demo_cycle 0 AwaitHasEnoughSpace) ∧
  0%nat ≠ 1%nat.
Proof. vm_compute. repeat split; try done. Qed.

Lemma C2_witness :
  reachable demo_store demo_format demo_checking ∧
  current demo_checking = Some 0%nat ∧
  sessions demo_checking !! 0%nat = Some (demo_session 0 10000 false 1) ∧
  deps_of (demo_props 1) ≠ session_deps (demo_session 0 10000 false 1) ∧
  (step demo_store demo_format demo_checking (Render (demo_props 1))).2 =
    [(0%nat, AAbort); (0%nat, AClearInterval 1);
     (1%nat, AInvoke 1); (1%nat, AHasEnoughSpace 1 1);
     (1%nat, ASetInterval 2 10000)].
Proof.
  assert (H1 : reachable demo_store demo_format demo_checking)
    by apply demo_reachable.
  assert (H2 : current demo_checking = Some 0%nat) by done.
  assert (H3 : sessions demo_checking !! 0%nat =
               Some (demo_session 0 10000 false 1)) by done.
  assert (H4 : deps_of (demo_props 1) ≠
               session_deps (demo_session 0 10000 false 1)) by done.
  destruct (C2_one_check_without_timer demo_store demo_format
              demo_checking (demo_props 1) 0 _ H1 H2 H3 H4) as (_ & Ho & _).
  split; [exact H1|]. split; [exact H2|]. split; [exact H3|].
  split; [exact H4|]. by rewrite Ho.
Defined.

(** C3, on a run: a downloaded model, then one of origin [LOCAL]. *)
Lemma C3_witness :
  storageStatus (demo_run [Render (demo_props 2); Tick;
                           Render (demo_every 3 1); Tick; Unmount]).1 =
    initialStatus ∧
  ∀ o c m, o ∈ (demo_run [Render (demo_props 2); Tick;
                           Render (demo_every 3 1); Tick; Unmount]).2 →
           o.2 ≠ AHasEnoughSpace c m.
Proof.
  destruct (C3_local_models_skip demo_store demo_format
              [Render (demo_props 2); Tick; Render (demo_every 3 1); Tick;
               Unmount]) as (H1 & _ & H2 & _).
  - intros p Hp.
    repeat (apply elem_of_cons in Hp as [Hp|Hp];
            [try done; by injection Hp as ->|]).
    by apply elem_of_nil in Hp.
  - split; [exact H1|exact H2].
Defined.

(** C4, on a run: the spec's example of a 5 GB model and 4 GB free. *)
Lemma C4_witness :
  let s := (demo_run [Render (demo_every 0 1)]).1 in
  let s' := (demo_run [Render (demo_every 0 1); Tick;
                       HasEnoughSpaceSettled 1 (Fulfilled false)]).1 in
  sessions s !! 0%nat = Some (demo_session 0 1 false 1) ∧
  skips (demo_store 0) = false ∧
  (checkStorage demo_store 0 s).2 =
    [(0%nat, AInvoke 1); (0%nat, AHasEnoughSpace 1 0)] ∧
  storageStatus (step demo_store demo_format s'
    (FreeDiskStorageSettled 1 (Fulfilled 4000000000))).1 = demo_low_status.
Proof.
  intros s s'.
  assert (H1 : sessions s !! 0%nat = Some (demo_session 0 1 false 1)) by done.
  assert (H2 : skips (demo_store (s_model (demo_session 0 1 false 1))) = false)
    by done.
  destruct (C4_completed_cycle demo_store demo_format s 0 _ H1 H2)
    as (Ha & _ & _ & Hlow & _).
  split; [exact H1|]. split; [exact H2|]. split; [by rewrite Ha|].
  specialize (Hlow s' (demo_session 0 1 false 1) 4000000000
                eq_refl eq_refl eq_refl eq_refl).
  change 1%nat with (next_cycle s) at 1. by rewrite Hlow.
Defined.

(** C5, on a run: the first query of model 0 is rejected. *)
Lemma C5_witness :
  pending demo_checking !! 0%nat = Some (demo_cycle 0 AwaitHasEnoughSpace) ∧
  sessions demo_checking !! 0%nat = Some (demo_session 0 10000 false 1) ∧
  step demo_store demo_format demo_checking (HasEnoughSpaceSettled 0 Rejected) =
    (set_pending (delete 0%nat (pending demo_checking))
       (set_storageStatus failedStatus demo_checking),
     [(0%nat, AConsoleError 0);
      (0%nat, ASetStorageStatus 0 failedStatus)]).
Proof.
  assert (H1 : pending demo_checking !! 0%nat =
               Some (demo_cycle 0 AwaitHasEnoughSpace)) by by vm_compute.
  assert (H2 : sessions demo_checking !! c_session
                 (demo_cycle 0 AwaitHasEnoughSpace) =
               Some (demo_session 0 10000 false 1)) by done.
  destruct (C5_failure_is_absorbed demo_store demo_format demo_checking 0
              (demo_cycle 0 AwaitHasEnoughSpace) _
              (HasEnoughSpaceSettled 0 Rejected) H1 H2 eq_refl eq_refl)
    as [Hs _].
  split; [exact H1|]. split; [exact H2|]. exact Hs.
Defined.

(** C6, on a run: thirty seconds pass and the answer arrives. *)
Lemma C6_witness :
  reachable demo_store demo_format init ∧
  ¬ observing (deps_of (demo_once 0)) init ∧
  invocations 0
    (run demo_store demo_format init
       (Render (demo_once 0) ::
        repeat Tick (Z.to_nat 30000) ++
        [HasEnoughSpaceSettled 0 (Fulfilled true)])).2 = 1%nat.
Proof.
  assert (H1 : reachable demo_store demo_format init) by by exists [].
  assert (H2 : ¬ observing (deps_of (demo_once 0)) init) by done.
  destruct (C6_single_check demo_store demo_format init (demo_once 0)
              (repeat Tick (Z.to_nat 30000) ++
               [HasEnoughSpaceSettled 0 (Fulfilled true)])
              H1 H2 eq_refl) as [Hc _].
  { by vm_compute. }
  split; [exact H1|]. split; [exact H2|]. exact Hc.
Defined.

(** C7 fails as stated: after 10 000 ms the session has run two checks,
    not one, and at its very start one, not none. *)
Lemma C7_two_checks_after_one_period :
  invocations 0
    (demo_run (Render (demo_props 0) :: repeat Tick (Z.to_nat (1 * 10000)))).2
    = 2%nat ∧
  invocations 0
    (demo_run (Render (demo_props 0) :: repeat Tick (Z.to_nat (0 * 10000)))).2
    = 1%nat.
Proof. by vm_compute. Qed.

Lemma C7_witness :
  reachable demo_store demo_format init ∧
  ¬ observing (deps_of (demo_props 0)) init ∧
  Z.of_nat (ticks (repeat Tick (Z.to_nat 20000))) = Z.of_nat 2 * 10000 + 0 ∧
  invocations 0
    (run demo_store demo_format init
       (Render (demo_props 0) :: repeat Tick (Z.to_nat 20000))).2 = 3%nat.
Proof.
  assert (H1 : reachable demo_store demo_format init) by by exists [].
  assert (H2 : ¬ observing (deps_of (demo_props 0)) init) by done.
  assert (H3 : Z.of_nat (ticks (repeat Tick (Z.to_nat 20000))) =
               Z.of_nat 2 * 10000 + 0) by by vm_compute.
  assert (H4 : forallb (keeps (deps_of (demo_props 0)))
                 (repeat Tick (Z.to_nat 20000)) = true) by by vm_compute.
  pose proof (C7_periodic_checks demo_store demo_format init (demo_props 0)
                (repeat Tick (Z.to_nat 20000)) 2 0
                H1 H2 eq_refl eq_refl H4 H3 ltac:(lia)) as H.
  split; [exact H1|]. split; [exact H2|]. split; [exact H3|]. exact H.
Defined.

(** C8 fails as stated: model 0 has published its status and its next
    check is in flight when the hook is given model 1; the status of
    model 0 is what the caller goes on seeing, while the check of model 1
    is in flight and also after the late answer for model 0. *)
Lemma C8_old_status_still_observed :
  pending demo_low !! 1%nat = Some (demo_cycle 0 AwaitHasEnoughSpace) ∧
  storageStatus demo_low = demo_low_status ∧
  let after := run demo_store demo_format demo_low
                 [Render (demo_props 1);
                  HasEnoughSpaceSettled 1 (Fulfilled true)] in
  current after.1 = Some 1%nat ∧
  model_of 1 after.1 = 1%nat ∧
  pending after.1 !! 2%nat = Some (demo_cycle 1 AwaitHasEnoughSpace) ∧
  storageStatus after.1 = demo_low_status ∧
  demo_low_status ≠ initialStatus ∧
  ∀ freeDisk, demo_low_status ≠ lowStatus demo_format (demo_store 1) freeDisk.
Proof.
  repeat split; by vm_compute.
Qed.

Lemma C8_witness :
  reachable demo_store demo_format demo_low ∧
  current demo_low = Some 0%nat ∧
  sessions demo_low !! 0%nat = Some (demo_session 0 1 false 1) ∧
  deps_of (demo_props 1) ≠ session_deps (demo_session 0 1 false 1) ∧
  (step demo_store demo_format demo_low (Render (demo_props 1))).2 =
    [(0%nat, AAbort); (0%nat, AClearInterval 1);
     (1%nat, AInvoke 2); (1%nat, AHasEnoughSpace 2 1);
     (1%nat, ASetInterval 2 10000)] ∧
  ∀ o, o ∈ (run demo_store demo_format
              (step demo_store demo_format demo_low (Render (demo_props 1))).1
              [HasEnoughSpaceSettled 1 (Fulfilled true);
               HasEnoughSpaceSettled 2 (Fulfilled true)]).2 →
       (1 ≤ o.1)%nat.
Proof.
  assert (H1 : reachable demo_store demo_format demo_low)
    by apply demo_reachable.
  assert (H2 : current demo_low = Some 0%nat) by done.
  assert (H3 : sessions demo_low !! 0%nat =
               Some (demo_session 0 1 false 1)) by done.
  assert (H4 : deps_of (demo_props 1) ≠
               session_deps (demo_session 0 1 false 1)) by done.
  destruct (C8_change_restarts_session demo_store demo_format
              demo_low (demo_props 1) 0 _
              [HasEnoughSpaceSettled 1 (Fulfilled true);
               HasEnoughSpaceSettled 2 (Fulfilled true)] H1 H2 H3 H4)
    as (Ho & _ & _ & _ & _ & _ & Hact).
  split; [exact H1|]. split; [exact H2|]. split; [exact H3|].
  split; [exact H4|]. split; [by rewrite Ho|]. exact Hact.
Defined.

(** C9, on a run: the hook goes from model 0, found too large, to the
    downloaded model 2, and keeps saying that storage is low. *)
Lemma C9_witness :
  reachable demo_store demo_format demo_low ∧
  storageStatus (step demo_store demo_format demo_low
                   (Render (demo_props 2))).1 = demo_low_status ∧
  storageStatus (run demo_store demo_format demo_low
                   (Render (demo_props 2) :: repeat Tick 20)).1 =
    demo_low_status.
Proof.
  assert (H1 : reachable demo_store demo_format demo_low)
    by apply demo_reachable.
  destruct (C9_status_survives_restart demo_store demo_format demo_low
              (demo_props 2) (repeat Tick 20) H1) as (Ha & Hb & _).
  split; [done|]. split; [by rewrite Ha|]. by rewrite Hb.
Defined.

(** C10, on a run: the hook is torn down, then [hasEnoughSpace] answers
    that the space is not enough. *)
Lemma C10_witness :
  reachable demo_store demo_format demo_torn_down ∧
  pending demo_torn_down !! 0%nat = Some (demo_cycle 0 AwaitHasEnoughSpace) ∧
  sessions demo_torn_down !! 0%nat = Some (demo_session 0 10000 true 1) ∧
  step demo_store demo_format demo_torn_down
    (HasEnoughSpaceSettled 0 (Fulfilled false)) =
    (set_pending (delete 0%nat (pending demo_torn_down)) demo_torn_down, []).
Proof.
  assert (H1 : reachable demo_store demo_format demo_torn_down)
    by apply demo_reachable.
  assert (H2 : pending demo_torn_down !! 0%nat =
               Some (demo_cycle 0 AwaitHasEnoughSpace)) by by vm_compute.
  assert (H3 : sessions demo_torn_down !! 0%nat =
               Some (demo_session 0 10000 true 1)) by by vm_compute.
  destruct (C10_no_query_after_cancellation demo_store demo_format
              demo_torn_down 0 0 _ [] H1 H2 H3 eq_refl) as (Hs & _).
  split; [exact H1|]. split; [exact H2|]. split; [exact H3|]. exact Hs.
Defined.

(** The published status on a run, and the timers. *)
Lemma published_status_forms_witness :
  reachable demo_store demo_format demo_low ∧
  (isOk (storageStatus demo_low) = true ↔ message (storageStatus demo_low) = "").
Proof.
  assert (H1 : reachable demo_store demo_format demo_low)
    by apply demo_reachable.
  destruct (published_status_forms demo_store demo_format demo_low H1)
    as [_ H].
  split; [exact H1|exact H].
Defined.

Lemma one_live_session_one_timer_witness :
  reachable demo_store demo_format demo_low ∧
  (length (timers demo_low) ≤ 1)%nat ∧
  timers (step demo_store demo_format demo_low Unmount).1 = [].
Proof.
  assert (H1 : reachable demo_store demo_format demo_low)
    by apply demo_reachable.
  destruct (one_live_session_one_timer demo_store demo_format demo_low H1)
    as (Ha & _ & _ & _ & Hb).
  split; [exact H1|]. split; [exact Ha|exact Hb].
Defined.

(** The defaults written out: no new session. *)
Lemma render_with_equal_options_witness :
  observing (deps_of (demo_props 0)) demo_checking ∧
  step demo_store demo_format demo_checking
    (Render {| model := 0;
               options := {| enablePeriodicCheck := Some true;
                             checkInterval := Some 10000 |} |}) =
    (demo_checking, []).
Proof.
  assert (H1 : observing (deps_of (demo_props 0)) demo_checking) by done.
  split; [exact H1|].
  exact (render_with_equal_options demo_store demo_format demo_checking 0
           {| enablePeriodicCheck := None; checkInterval := None |}
           {| enablePeriodicCheck := Some true; checkInterval := Some 10000 |}
           H1 eq_refl eq_refl).
Defined.

Lemma hasEnoughSpace_only_for_given_models_witness :
  (0%nat, AHasEnoughSpace 0 0) ∈ (demo_run [Render (demo_props 0)]).2 ∧
  skips (demo_store 0) = false ∧
  ∃ p, Render p ∈ [Render (demo_props 0)] ∧ model p = 0%nat.
Proof.
  assert (H1 : (0%nat, AHasEnoughSpace 0 0) ∈
               (demo_run [Render (demo_props 0)]).2).
  { vm_compute. apply elem_of_cons. right. apply elem_of_cons. by left. }
  split; [exact H1|].
  exact (hasEnoughSpace_only_for_given_models demo_store demo_format
           [Render (demo_props 0)] (0%nat, AHasEnoughSpace 0 0) 0 0
           H1 eq_refl).
Defined.


(** * The result card, [src/screens/BenchmarkScreen/BenchResultCard/BenchResultCard.tsx] *)

Module BenchResultCard.

(** Lines 22-33.  [ms] is a number that holds an integer (the wall time
    of a run in milliseconds, small enough for JS to print all of its
    digits); the template literals print it in decimal, as [pretty]
    does; [%] is the remainder of a division that truncates. *)
Definition formatDuration (ms : Z) : string :=
  if ms <? 1000 then pretty ms +:+ "ms"
  else
    let seconds := ms / 1000 in
    let minutes := seconds / 60 in
    if 0 <? minutes then
      let remainingSeconds := Z.rem seconds 60 in
      pretty minutes +:+ "m " +:+ pretty remainingSeconds +:+ "s"
    else pretty seconds +:+ "s".

(** What a JSX expression in braces evaluates to: an element, a number
    (which [&&] hands on when its left side is [0]), or nothing
    ([undefined]). *)
Inductive Jsx (A : Type) :=
| Element (a : A)
| Number (n : Z)
| Nothing.
Arguments Element {A} a.
Arguments Number {A} n.
Arguments Nothing {A}.

(** The members of [BenchmarkResult] that lines 117-140 read.  Both are
    optional; the percentage of the peak memory is a fraction and is
    left out. *)
Record PeakMemoryUsage := {
  total : Z;
  used : Z
}.

Record BenchmarkResult := {
  wallTimeMs : option Z;
  peakMemoryUsage : option PeakMemoryUsage
}.

(** The second row of results: the text of its "Total Time" item and
    the data of its "Peak Memory" item. *)
Record ResultRow := {
  totalTime : Jsx string;
  peakMemory : Jsx PeakMemoryUsage
}.

(** Whether an optional number is truthy. *)
Definition truthy (x : option Z) : bool :=
  match x with
  | Some n => negb (n =? 0)
  | None => false
  end.

(** Lines 119-126: [result.wallTimeMs && (...)]. *)
Definition totalTimeItem (result : BenchmarkResult) : Jsx string :=
  match wallTimeMs result with
  | None => Nothing
  | Some ms => if ms =? 0 then Number ms else Element (formatDuration ms)
  end.

(** Lines 127-138: [result.peakMemoryUsage && (...)]. *)
Definition peakMemoryItem (result : BenchmarkResult) : Jsx PeakMemoryUsage :=
  match peakMemoryUsage result with
  | None => Nothing
  | Some m => Element m
  end.

(** Lines 117-140: [(result.wallTimeMs || result.peakMemoryUsage) && (...)]. *)
Definition secondRow (result : BenchmarkResult) : Jsx ResultRow :=
  if truthy (wallTimeMs result) || bool_decide (is_Some (peakMemoryUsage result))
  then Element {| totalTime := totalTimeItem result;
                  peakMemory := peakMemoryItem result |}
  else Nothing.

(** The characters of a text, and the decimal digits among them. *)
Definition chars (s : string) : list ascii := String.list_ascii_of_string s.

Definition is_digit (a : ascii) : bool :=
  bool_decide (a ∈ ["0"; "1"; "2"; "3"; "4"; "5"; "6"; "7"; "8"; "9"]%char).

Definition demo_result : BenchmarkResult :=
  {| wallTimeMs := Some 0;
     peakMemoryUsage := Some {| total := 8000000000; used := 4000000000 |} |}.

Lemma chars_app s t : chars (s +:+ t) = chars s ++ chars t.
Proof. induction s as [|a s IH]; simpl; [done|]. by rewrite IH. Qed.

Lemma chars_inj s t : chars s = chars t → s = t.
Proof.
  intros H. rewrite <- (String.string_of_list_ascii_of_string s),
    <- (String.string_of_list_ascii_of_string t).
  unfold chars in H. by rewrite H.
Qed.

Lemma pretty_N_char_digit x : is_digit (pretty_N_char x) = true.
Proof. unfold pretty_N_char. by repeat case_match. Qed.

Lemma pretty_N_go_digits x s :
  Forall (λ a, is_digit a = true) (chars s) →
  Forall (λ a, is_digit a = true) (chars (pretty_N_go x s)).
Proof.
  revert s. induction (N.lt_wf_0 x) as [x _ IH]; intros s Hs.
  assert (x = 0 ∨ 0 < x)%N as [->|?] by lia.
  - by rewrite pretty_N_go_0.
  - rewrite pretty_N_go_step by done. apply IH; [by apply N.div_lt|].
    simpl. constructor; [apply pretty_N_char_digit|done].
Qed.

Lemma pretty_N_go_length x s :
  (String.length s ≤ String.length (pretty_N_go x s))%nat.
Proof.
  revert s. induction (N.lt_wf_0 x) as [x _ IH]; intros s.
  assert (x = 0 ∨ 0 < x)%N as [->|?] by lia; [by rewrite pretty_N_go_0|].
  rewrite pretty_N_go_step by done.
  etrans; [|by eapply IH, N.div_lt]. simpl. lia.
Qed.

Lemma pretty_N_digits (x : N) :
  Forall (λ a, is_digit a = true) (chars (pretty x)) ∧ chars (pretty x) ≠ [].
Proof.
  unfold pretty, pretty_N. case_decide as Hx; [by repeat constructor|].
  split; [by apply pretty_N_go_digits|].
  rewrite pretty_N_go_step by lia.
  pose proof (pretty_N_go_length (x `div` 10)%N
                (String (pretty_N_char (x `mod` 10)%N) "")) as Hl.
  intros Hn. destruct (pretty_N_go _ _); simpl in *; [lia|done].
Qed.

Lemma pretty_Z_digits (z : Z) :
  0 ≤ z →
  Forall (λ a, is_digit a = true) (chars (pretty z)) ∧ chars (pretty z) ≠ [].
Proof.
  intros Hz. destruct z as [|p|p]; [by repeat constructor| |lia].
  apply (pretty_N_digits (N.pos p)).
Qed.

Lemma pretty_Z_neg_chars (p : positive) :
  chars (pretty (Z.neg p)) = "-"%char :: chars (pretty (N.pos p)).
Proof. done. Qed.

Lemma chars_pretty_inj (a b : Z) :
  chars (pretty a) = chars (pretty b) → a = b.
Proof. intros H. by apply (inj pretty), chars_inj. Qed.

(** Two texts that start with digits agree up to and after their first
    other character. *)
Lemma digits_split l1 c1 r1 l2 c2 r2 :
  Forall (λ a, is_digit a = true) l1 → Forall (λ a, is_digit a = true) l2 →
  is_digit c1 = false → is_digit c2 = false →
  l1 ++ c1 :: r1 = l2 ++ c2 :: r2 → l1 = l2 ∧ c1 = c2 ∧ r1 = r2.
Proof.
  intros H1. revert l2.
  induction H1 as [|a l1 Ha H1 IH]; intros l2 H2 Hc1 Hc2 E.
  - destruct H2 as [|b l2 Hb H2]; simpl in E; simplify_eq; [done|congruence].
  - destruct H2 as [|b l2 Hb H2]; simpl in E; simplify_eq; [congruence|].
    destruct (IH l2 H2 Hc1 Hc2) as (-> & -> & ->); done.
Qed.

(** The text of a duration, cut at its first character that is no digit. *)
Lemma formatDuration_chars ms :
  ∃ l c r, chars (formatDuration ms) = l ++ c :: r ∧
    Forall (λ a, is_digit a = true) l ∧ is_digit c = false ∧
    ((ms < 0 ∧ l = []) ∨
     (0 ≤ ms < 1000 ∧ l = chars (pretty ms) ∧ c = "m"%char ∧ r = ["s"%char]) ∨
     (1000 ≤ ms ∧ ms / 1000 / 60 ≤ 0 ∧
      l = chars (pretty (ms / 1000)) ∧ c = "s"%char ∧ r = []) ∨
     (1000 ≤ ms ∧ 0 < ms / 1000 / 60 ∧
      l = chars (pretty (ms / 1000 / 60)) ∧ c = "m"%char ∧
      r = " "%char :: chars (pretty (Z.rem (ms / 1000) 60)) ++ ["s"%char])).
Proof.
  unfold formatDuration. destruct (Z.ltb_spec ms 1000) as [Hlt|Hge].
  - destruct (Z.lt_ge_cases ms 0) as [Hneg|Hpos].
    + destruct ms as [|p|p]; try lia.
      exists [], "-"%char, (chars (pretty (N.pos p)) ++ chars "ms").
      rewrite chars_app, pretty_Z_neg_chars. repeat split; try done. by left.
    + destruct (pretty_Z_digits ms Hpos) as [Hd _].
      exists (chars (pretty ms)), "m"%char, ["s"%char].
      rewrite chars_app. repeat split; try done. right. left. done.
  - cbv zeta. destruct (Z.ltb_spec 0 (ms / 1000 / 60)) as [Hm|Hm].
    + destruct (pretty_Z_digits (ms / 1000 / 60) ltac:(lia)) as [Hd _].
      eexists _, "m"%char, _. rewrite !chars_app. simpl.
      split; [reflexivity|]. repeat split; try done.
      right. right. right. repeat split; try done.
    + assert (0 ≤ ms / 1000) by (apply Z.div_pos; lia).
      destruct (pretty_Z_digits (ms / 1000) ltac:(lia)) as [Hd _].
      exists (chars (pretty (ms / 1000))), "s"%char, [].
      rewrite chars_app. repeat split; try done.
      right. right. left. done.
Qed.

(** Durations that are printed alike. *)
Lemma formatDuration_eq_inv a b :
  formatDuration a = formatDuration b →
  a = b ∨ (1000 ≤ a ∧ 1000 ≤ b ∧ a / 1000 = b / 1000).
Proof.
  intros E.
  destruct (Z.lt_ge_cases a 1000) as [Ha|Ha], (Z.lt_ge_cases b 1000) as [Hb|Hb].
  - left. unfold formatDuration in E.
    destruct (Z.ltb_spec a 1000), (Z.ltb_spec b 1000); try lia.
    apply (f_equal chars) in E. rewrite !chars_app in E.
    apply app_inv_tail in E. by apply chars_pretty_inj.
  - exfalso. apply (f_equal chars) in E.
    destruct (formatDuration_chars a) as (l1 & c1 & r1 & E1 & D1 & N1 & C1).
    destruct (formatDuration_chars b) as (l2 & c2 & r2 & E2 & D2 & N2 & C2).
    rewrite E1, E2 in E.
    destruct (digits_split _ _ _ _ _ _ D1 D2 N1 N2 E) as (El & Ec & Er).
    destruct C1 as [[? ->]|[(? & -> & -> & ->)|[?|?]]]; try lia;
    destruct C2 as [?|[?|[(? & ? & -> & -> & ->)|(? & ? & -> & -> & ->)]]];
      try lia; try done.
    + destruct (pretty_Z_digits (b / 1000)) as [_ Hn];
        [apply Z.div_pos; lia|]. by rewrite <- El in Hn.
    + destruct (pretty_Z_digits (b / 1000 / 60)) as [_ Hn]; [lia|].
      by rewrite <- El in Hn.
  - exfalso. apply (f_equal chars) in E.
    destruct (formatDuration_chars a) as (l1 & c1 & r1 & E1 & D1 & N1 & C1).
    destruct (formatDuration_chars b) as (l2 & c2 & r2 & E2 & D2 & N2 & C2).
    rewrite E1, E2 in E.
    destruct (digits_split _ _ _ _ _ _ D1 D2 N1 N2 E) as (El & Ec & Er).
    destruct C2 as [[? ->]|[(? & -> & -> & ->)|[?|?]]]; try lia;
    destruct C1 as [?|[?|[(? & ? & -> & -> & ->)|(? & ? & -> & -> & ->)]]];
      try lia; try done.
    + destruct (pretty_Z_digits (a / 1000)) as [_ Hn];
        [apply Z.div_pos; lia|]. by rewrite El in Hn.
    + destruct (pretty_Z_digits (a / 1000 / 60)) as [_ Hn]; [lia|].
      by rewrite El in Hn.
  - right. split; [done|]. split; [done|]. apply (f_equal chars) in E.
    destruct (formatDuration_chars a) as (l1 & c1 & r1 & E1 & D1 & N1 & C1).
    destruct (formatDuration_chars b) as (l2 & c2 & r2 & E2 & D2 & N2 & C2).
    rewrite E1, E2 in E.
    destruct (digits_split _ _ _ _ _ _ D1 D2 N1 N2 E) as (El & Ec & Er).
    destruct C1 as [?|[?|[(? & ? & -> & -> & ->)|(? & ? & -> & -> & ->)]]];
      try lia;
    destruct C2 as [?|[?|[(? & ? & -> & -> & ->)|(? & ? & -> & -> & ->)]]];
      try lia; try done.
    + by apply chars_pretty_inj.
    + apply chars_pretty_inj in El. injection Er as Er.
      apply app_inv_tail, chars_pretty_inj in Er.
      assert (0 ≤ a / 1000) by (apply Z.div_pos; lia).
      assert (0 ≤ b / 1000) by (apply Z.div_pos; lia).
      rewrite !Z.rem_mod_nonneg in Er by lia.
      rewrite (Z.div_mod (a / 1000) 60), (Z.div_mod (b / 1000) 60) by lia.
      by rewrite El, Er.
Qed.



(** When the second row is rendered it holds at least one item; its
    total time is the formatted wall time of a result whose wall time is
    not zero, so it never reads "0ms"; and for a wall time of zero (with
    a peak memory, which is what brings the row up) the row is handed
    the bare number 0 in place of the item. *)
Theorem secondRow_items result row :
  secondRow result = Element row →
  ((∃ text, totalTime row = Element text) ∨
   (∃ m, peakMemory row = Element m)) ∧
  (∀ text, totalTime row = Element text →
     text ≠ "0ms" ∧
     ∃ ms, ms ≠ 0 ∧ wallTimeMs result = Some ms ∧ text = formatDuration ms) ∧
  (wallTimeMs result = Some 0 →
   totalTime row = Number 0 ∧ ∃ m, peakMemory row = Element m).
Proof.
  unfold secondRow, totalTimeItem, peakMemoryItem, truthy.
  destruct (wallTimeMs result) as [ms|] eqn:Hw; simpl.
  - destruct (Z.eqb_spec ms 0) as [->|Hne]; simpl.
    + case_bool_decide as Hp; [|done]. destruct Hp as [m Hp]. rewrite Hp.
      intros [= <-]. simpl. split; [right; eauto|]. split; [done|eauto].
    + intros [= <-]. simpl. split; [left; eauto|]. split.
      * intros text [= <-]. split; [|eauto].
        change "0ms" with (formatDuration 0). intros H.
        apply formatDuration_eq_inv in H as [?|?]; lia.
      * intros [= ?]. done.
  - case_bool_decide as Hp; [|done]. destruct Hp as [m Hp]. rewrite Hp.
    intros [= <-]. simpl. split; [right; eauto|]. done.
Qed.

Lemma secondRow_items_witness :
  secondRow demo_result =
    Element {| totalTime := Number 0;
               peakMemory := Element {| total := 8000000000;
                                        used := 4000000000 |} |} ∧
  totalTime {| totalTime := Number 0;
               peakMemory := Element {| total := 8000000000;
                                        used := 4000000000 |} |} = Number 0.
Proof.
  assert (H1 : secondRow demo_result =
    Element {| totalTime := Number 0;
               peakMemory := Element {| total := 8000000000;
                                        used := 4000000000 |} |}) by done.
  destruct (secondRow_items demo_result _ H1) as (_ & _ & H).
  split; [exact H1|]. by destruct (H eq_refl) as [H2 _].
Defined.

End BenchResultCard.

(** * The chat input, [src/components/Input/Input.tsx] *)

Module Input.

(** A JS string is a sequence of UTF-16 code units, here [list N].
    [String.prototype.trim] removes the code units of ECMAScript's
    WhiteSpace and LineTerminator productions from both ends. *)
Definition isWhiteSpace (u : N) : bool :=
  bool_decide (u ∈ [0x09; 0x0A; 0x0B; 0x0C; 0x0D; 0x20; 0xA0; 0x1680;
                    0x2028; 0x2029; 0x202F; 0x205F; 0x3000; 0xFEFF]%N)
  || ((0x2000 <=? u)%N && (u <=? 0x200A)%N).

Fixpoint trimStart (s : list N) : list N :=
  match s with
  | u :: rest => if isWhiteSpace u then trimStart rest else s
  | [] => []
  end.

Definition trimEnd (s : list N) : list N :=
  reverse (trimStart (reverse s)).

Definition trim (s : list N) : list N := trimEnd (trimStart s).

(** The props the component reads.  A callback that is only handed on or
    called is kept as the fact of its presence ([onAttachmentPress],
    [onChangeText]) or left out where it is required ([onSendPress]); an
    optional member is an [option]. *)
Inductive VisibilityMode :=
| always
| editing.

Global Instance VisibilityMode_eq_dec : EqDecision VisibilityMode.
Proof. solve_decision. Defined.

Record TextInputProps := {
  defaultValue : option (list N);
  value : option (list N);
  onChangeText : bool
}.

Record InputProps := {
  isAttachmentUploading : option bool;
  onAttachmentPress : bool;
  isStopVisible : option bool;
  sendButtonVisibilityMode : option VisibilityMode;
  textInputProps : option TextInputProps
}.

(** The calls of the props' callbacks that a handler makes. *)
Inductive Call :=
| OnSendPress (text : list N)
| OnChangeText (newText : list N).

(** What lines 87-123 render: the slot before the text input, the value
    handed to the text input, and whether the send and the stop button
    are there. *)
Inductive AttachmentSlot :=
| NoAttachment
| UploadIndicator
| AttachmentButton.

Record View := {
  attachment : AttachmentSlot;
  inputValue : list N;
  sendButton : bool;
  stopButton : bool
}.

(** Line 65: [React.useState(textInputProps?.defaultValue ?? '')]. *)
Definition initialText (p : InputProps) : list N :=
  default [] (textInputProps p ≫= defaultValue).

(** Line 67: [textInputProps?.value ?? text]. *)
Definition valueOf (p : InputProps) (text : list N) : list N :=
  default text (textInputProps p ≫= value).

(** Lines 69-73.  A handler returns the next [text] state and the calls
    it made. *)
Definition handleChangeText (p : InputProps) (newText text : list N)
  : list N * list Call :=
  (newText,
   if from_option onChangeText false (textInputProps p)
   then [OnChangeText newText] else []).

(** Lines 75-85.  A string is truthy when it is not empty. *)
Definition handleSend (p : InputProps) (text : list N) : list N * list Call :=
  let trimmedValue := trim (valueOf p text) in
  if bool_decide (trimmedValue ≠ [])
  then ([], [OnSendPress trimmedValue])
  else (text, []).

(** Lines 87-123, for the value [user] of [UserContext] ([None] when the
    context holds no user). *)
Definition render (p : InputProps) (user : option nat) (text : list N) : View :=
  let value := valueOf p text in
  {| attachment :=
       match user with
       | None => NoAttachment
       | Some _ =>
           if default false (isAttachmentUploading p) then UploadIndicator
           else if onAttachmentPress p then AttachmentButton
           else NoAttachment
       end;
     inputValue := value;
     sendButton :=
       bool_decide (sendButtonVisibilityMode p = Some always)
       || (bool_decide (sendButtonVisibilityMode p = Some editing)
           && bool_decide (is_Some user)
           && bool_decide (trim value ≠ []));
     stopButton := default false (isStopVisible p) |}.

(** A sample text, " hi" followed by a line feed, and sample props with
    the controlled value [v]. *)
Definition demo_text : list N := [0x20; 0x68; 0x69; 0x0A]%N.

Definition demo_input (v : option (list N)) : InputProps :=
  {| isAttachmentUploading := None; onAttachmentPress := false;
     isStopVisible := None; sendButtonVisibilityMode := Some editing;
     textInputProps := Some {| defaultValue := None; value := v;
                               onChangeText := true |} |}.

(** [trim] cuts a blank prefix and a blank suffix off, and what is left
    neither starts nor ends with a blank. *)
Lemma trimStart_spec s :
  ∃ pre, s = pre ++ trimStart s ∧ Forall (λ u, isWhiteSpace u = true) pre ∧
         (∀ u r, trimStart s = u :: r → isWhiteSpace u = false).
Proof.
  induction s as [|u s (pre & E & Hp & Hh)]; simpl.
  - exists []. repeat split; try done.
  - destruct (isWhiteSpace u) eqn:Hu.
    + exists (u :: pre). simpl. rewrite <- E. repeat split; try done.
      by constructor.
    + exists []. repeat split; try done. by intros ?? [= <- <-].
Qed.

Lemma trimEnd_spec s :
  ∃ post, s = trimEnd s ++ post ∧ Forall (λ u, isWhiteSpace u = true) post ∧
          (∀ r u, trimEnd s = r ++ [u] → isWhiteSpace u = false).
Proof.
  unfold trimEnd. destruct (trimStart_spec (reverse s)) as (pre & E & Hp & Hh).
  exists (reverse pre). repeat split.
  - rewrite <- reverse_app, <- E. by rewrite reverse_involutive.
  - by apply Forall_reverse.
  - intros r u Hr. apply (f_equal reverse) in Hr.
    rewrite reverse_involutive, reverse_snoc in Hr. by eapply Hh.
Qed.

Lemma trim_spec s :
  ∃ pre post, s = pre ++ trim s ++ post ∧
    Forall (λ u, isWhiteSpace u = true) pre ∧
    Forall (λ u, isWhiteSpace u = true) post ∧
    (∀ u r, trim s = u :: r → isWhiteSpace u = false) ∧
    (∀ r u, trim s = r ++ [u] → isWhiteSpace u = false).
Proof.
  unfold trim. destruct (trimStart_spec s) as (pre & E & Hp & Hh).
  destruct (trimEnd_spec (trimStart s)) as (post & E' & Hq & Hl).
  exists pre, post. repeat split; try done.
  - by rewrite <- E', <- E.
  - intros u r Hr. destruct (trimStart s) as [|v t] eqn:Ht.
    + by rewrite Hr in E'.
    + rewrite Hr in E'. injection E' as <- _. by eapply Hh.
Qed.

Lemma trim_fixed s :
  (∀ u r, s = u :: r → isWhiteSpace u = false) →
  (∀ r u, s = r ++ [u] → isWhiteSpace u = false) →
  trim s = s.
Proof.
  intros Hh Hl. unfold trim, trimEnd.
  assert (Hs : trimStart s = s).
  { destruct s as [|u r]; [done|]. simpl. by rewrite (Hh u r). }
  rewrite Hs.
  assert (Hr : trimStart (reverse s) = reverse s).
  { destruct (reverse s) as [|u r] eqn:E; [done|]. simpl.
    rewrite (Hl (reverse r) u); [done|].
    by rewrite <- (reverse_involutive s), E, reverse_cons. }
  by rewrite Hr, reverse_involutive.
Qed.

Lemma trim_idemp s : trim (trim s) = trim s.
Proof.
  destruct (trim_spec s) as (_ & _ & _ & _ & _ & Hh & Hl).
  by apply trim_fixed.
Qed.

Lemma trimStart_blank s :
  Forall (λ u, isWhiteSpace u = true) s → trimStart s = [].
Proof. induction 1 as [|u s Hu _ IH]; simpl; [done|]. by rewrite Hu. Qed.

Lemma trim_blank s : trim s = [] ↔ Forall (λ u, isWhiteSpace u = true) s.
Proof.
  split.
  - intros H. destruct (trim_spec s) as (pre & post & E & Hp & Hq & _).
    rewrite H in E. rewrite E. by apply Forall_app.
  - intros H. unfold trim. by rewrite (trimStart_blank s H).
Qed.

Lemma handleSend_cases p text :
  (trim (valueOf p text) ≠ [] ∧
   handleSend p text = ([], [OnSendPress (trim (valueOf p text))])) ∨
  (trim (valueOf p text) = [] ∧ handleSend p text = (text, [])).
Proof.
  unfold handleSend. cbv zeta. case_bool_decide as H; [by left|].
  right. split; [|done]. by destruct (trim (valueOf p text)).
Qed.

(** Whatever [handleSend] passes to [onSendPress] is the only call it
    makes, comes with the text state cleared, is not empty, starts and
    ends with a character that is no white space (so trimming it again
    changes nothing), and is the shown value with white space removed
    from its two ends only. *)
Theorem handleSend_sends_trimmed p text m :
  OnSendPress m ∈ (handleSend p text).2 →
  handleSend p text = ([], [OnSendPress m]) ∧
  m ≠ [] ∧ trim m = m ∧
  (∀ u r, m = u :: r → isWhiteSpace u = false) ∧
  (∀ r u, m = r ++ [u] → isWhiteSpace u = false) ∧
  ∃ pre post, valueOf p text = pre ++ m ++ post ∧
    Forall (λ u, isWhiteSpace u = true) pre ∧
    Forall (λ u, isWhiteSpace u = true) post.
Proof.
  intros H. destruct (handleSend_cases p text) as [[Hne E]|[_ E]];
    rewrite E in H; simpl in H.
  2: { by apply elem_of_nil in H. }
  apply list_elem_of_singleton in H. injection H as ->.
  destruct (trim_spec (valueOf p text)) as (pre & post & Ev & Hp & Hq & Hh & Hl).
  split; [done|]. split; [done|]. split; [apply trim_idemp|].
  split; [done|]. split; [done|]. by exists pre, post.
Qed.

(** The send button is rendered exactly when the mode is 'always', or the
    mode is 'editing', a user is in context and pressing the button
    would send a message.  With no mode given the button is never
    rendered; in mode 'always' it is there also when pressing it does
    nothing. *)
Theorem sendButton_shown p user text :
  sendButton (render p user text) = true ↔
  sendButtonVisibilityMode p = Some always ∨
  (sendButtonVisibilityMode p = Some editing ∧ is_Some user ∧
   ∃ m, handleSend p text = ([], [OnSendPress m])).
Proof.
  unfold render. simpl.
  rewrite orb_true_iff, !andb_true_iff, !bool_decide_eq_true.
  split.
  - intros [H|[[Hm Hu] Ht]]; [by left|right]. split; [done|]. split; [done|].
    destruct (handleSend_cases p text) as [[_ E]|[E _]]; [eauto|done].
  - intros [H|(Hm & Hu & m & E)]; [by left|right]. split; [done|].
    destruct (handleSend_cases p text) as [[Hne _]|[_ E']]; [done|].
    rewrite E' in E. done.
Qed.

(** [handleSend] makes no call exactly when the shown value consists of
    white space only (the empty value included); it then leaves the text
    state as it is. *)
Theorem blank_is_never_sent p text :
  ((handleSend p text).2 = [] ↔
   Forall (λ u, isWhiteSpace u = true) (valueOf p text)) ∧
  ((handleSend p text).2 = [] → (handleSend p text).1 = text).
Proof.
  rewrite <- trim_blank.
  destruct (handleSend_cases p text) as [[Hne E]|[He E]]; rewrite E; simpl.
  - split; [|done]. split; [done|]. intros H. by destruct Hne.
  - done.
Qed.

(** Without a [value] prop the component keeps the text itself: the
    first render shows [defaultValue] (or the empty string), after a
    change the input shows the new text, a send of a text that is not
    blank passes its trimmed form on and empties the input, and a second
    send then does nothing. *)
Theorem uncontrolled_type_then_send p user text newText :
  textInputProps p ≫= value = None →
  inputValue (render p user (initialText p)) =
    default [] (textInputProps p ≫= defaultValue) ∧
  inputValue (render p user (handleChangeText p newText text).1) = newText ∧
  (¬ Forall (λ u, isWhiteSpace u = true) newText →
   handleSend p (handleChangeText p newText text).1 =
     ([], [OnSendPress (trim newText)]) ∧
   inputValue (render p user []) = [] ∧
   handleSend p [] = ([], [])).
Proof.
  intros Hv.
  assert (Hval : ∀ t, valueOf p t = t).
  { intros t. unfold valueOf. by rewrite Hv. }
  unfold render, handleChangeText. simpl. rewrite !Hval. split; [done|].
  split; [done|]. intros Hb. split; [|split; [done|]].
  - destruct (handleSend_cases p newText) as [[_ E]|[E _]].
    + by rewrite Hval in E.
    + rewrite Hval in E. by apply trim_blank in E.
  - unfold handleSend. by rewrite Hval.
Qed.

(** With a [value] prop the input shows that value whatever was typed
    (the typed text is still stored), what a send passes on does not
    depend on the stored text, and, the value being the parent's to
    change, a second send passes the same message on again. *)
Theorem controlled_value_wins p user v text newText :
  textInputProps p ≫= value = Some v →
  inputValue (render p user (handleChangeText p newText text).1) = v ∧
  (handleChangeText p newText text).1 = newText ∧
  (handleSend p text).2 = (handleSend p []).2 ∧
  (handleSend p (handleSend p text).1).2 = (handleSend p text).2.
Proof.
  intros Hv.
  assert (Hval : ∀ t, valueOf p t = v).
  { intros t. unfold valueOf. by rewrite Hv. }
  unfold render, handleChangeText. simpl. rewrite Hval. split; [done|].
  split; [done|].
  assert (Hs : ∀ t, (handleSend p t).2 = (handleSend p []).2).
  { intros t. unfold handleSend. rewrite !Hval. cbv zeta.
    by case_bool_decide. }
  by rewrite (Hs text), (Hs (handleSend p text).1).
Qed.

Lemma handleSend_sends_trimmed_witness :
  handleSend (demo_input None) demo_text = ([], [OnSendPress [0x68; 0x69]%N]).
Proof.
  destruct (handleSend_sends_trimmed (demo_input None) demo_text
              [0x68; 0x69]%N) as [H _].
  - vm_compute. by left.
  - exact H.
Defined.

Lemma uncontrolled_type_then_send_witness :
  inputValue (render (demo_input None) (Some 1%nat)
                (handleChangeText (demo_input None) demo_text []).1) =
    demo_text ∧
  handleSend (demo_input None)
    (handleChangeText (demo_input None) demo_text []).1 =
    ([], [OnSendPress (trim demo_text)]).
Proof.
  destruct (uncontrolled_type_then_send (demo_input None) (Some 1%nat) []
              demo_text eq_refl) as (_ & H1 & H2).
  split; [exact H1|]. apply H2. intros H. by apply trim_blank in H.
Defined.

Lemma controlled_value_wins_witness :
  inputValue (render (demo_input (Some [])) None
                (handleChangeText (demo_input (Some [])) demo_text []).1) = [] ∧
  (handleSend (demo_input (Some demo_text))
     (handleSend (demo_input (Some demo_text)) []).1).2 =
  (handleSend (demo_input (Some demo_text)) []).2.
Proof.
  destruct (controlled_value_wins (demo_input (Some [])) None [] []
              demo_text eq_refl) as [H1 _].
  destruct (controlled_value_wins (demo_input (Some demo_text)) None demo_text
              [] demo_text eq_refl) as (_ & _ & _ & H2).
  split; [exact H1|exact H2].
Defined.

End Input.
